(** * Health check of the default Electrum servers

    A shallow embedding of [dev-scripts/health_check_default_electrum_servers.py]
    and the properties of its endpoint parser, transport probes and result
    aggregation.

    Conventions of the embedding.
    - A Python [str] and a Python [bytes] value are both Rocq strings; a
      character stands for the code point (or byte) with the same number, so
      the text of the model ranges over code points below 256.
    - A Python call either returns or raises: [outcome A].  Exceptions keep
      their class and the text that [str(e)] gives.
    - The standard library functions that the script calls are embedded from
      CPython 3.11 (the version the script asks for) as far as the script
      reads their result; the parts that need tables of their own (the JSON
      decoder, UTF-8 decoding of non-ASCII data, the [ipaddress] check of a
      bracketed host, [repr]) are the fields of a [Runtime].
    - The network is data: what each socket operation of one connection does. *)

From Stdlib Require Import ZArith NArith List String Ascii Bool Lia.
From Stdlib Require Import Sorting.Sorted Sorting.Permutation.
From Stdlib Require Structures.OrdersEx.
From stdpp Require Import base decidable list sorting gmap strings pretty.

Local Open Scope string_scope.
Local Open Scope list_scope.

(** ** Python values: results, exceptions, strings *)

Module Py.

(** The exception classes that the script names in an [except] clause or
    that its calls raise, with CPython's class hierarchy. *)
Inductive exc_type : Set :=
| Exception
| OSError
| TimeoutError            (* socket.timeout is this class since 3.10 *)
| ConnectionRefusedError
| SSLError
| ValueError
| UnicodeDecodeError
| JSONDecodeError
| TypeError.

Definition exc_type_eqb (a b : exc_type) : bool :=
  match a, b with
  | Exception, Exception | OSError, OSError | TimeoutError, TimeoutError
  | ConnectionRefusedError, ConnectionRefusedError | SSLError, SSLError
  | ValueError, ValueError | UnicodeDecodeError, UnicodeDecodeError
  | JSONDecodeError, JSONDecodeError | TypeError, TypeError => true
  | _, _ => false
  end.

(** [issubclass c d]: every class derives from [Exception]; the socket and
    TLS errors derive from [OSError], the decoding errors from [ValueError]. *)
Definition issubclass (c d : exc_type) : bool :=
  exc_type_eqb c d ||
  match d with
  | Exception => true
  | OSError =>
      match c with
      | TimeoutError | ConnectionRefusedError | SSLError => true
      | _ => false
      end
  | ValueError =>
      match c with
      | UnicodeDecodeError | JSONDecodeError => true
      | _ => false
      end
  | _ => false
  end.

Record exn : Set := mk_exn { exc_class : exc_type; exc_str : string }.

Inductive outcome (A : Type) : Type :=
| Return (a : A)
| Raise (e : exn).
Arguments Return {A} a.
Arguments Raise {A} e.

Definition bind {A B} (m : outcome A) (k : A -> outcome B) : outcome B :=
  match m with
  | Return a => k a
  | Raise e => Raise e
  end.

(** A call made for its effect only: [None] when it returns. *)
Definition call (r : option exn) : outcome unit :=
  match r with
  | None => Return tt
  | Some e => Raise e
  end.

(** [try: body except C1: h1 ... except Cn: hn]: the first clause whose
    class the exception is an instance of handles it; with no such clause
    the exception propagates. *)
Definition except_clause (A : Type) : Type := (exc_type * (exn -> outcome A))%type.

Fixpoint handle {A} (clauses : list (except_clause A)) (e : exn) : outcome A :=
  match clauses with
  | [] => Raise e
  | (c, h) :: rest => if issubclass (exc_class e) c then h e else handle rest e
  end.

Definition try_except {A} (body : outcome A) (clauses : list (except_clause A)) : outcome A :=
  match body with
  | Return a => Return a
  | Raise e => handle clauses e
  end.

(** Characters by number. *)
Definition ord (c : ascii) : N := N_of_ascii c.
Definition chr (n : N) : ascii := ascii_of_N n.

Definition LF : ascii := chr 10.
Definition QUOTE : ascii := chr 34.

Definition between (lo hi : N) (c : ascii) : bool :=
  (lo <=? ord c)%N && (ord c <=? hi)%N.

Definition is_ascii_char (c : ascii) : bool := (ord c <? 128)%N.
Definition is_ascii_alpha (c : ascii) : bool := between 65 90 c || between 97 122 c.
Definition is_ascii_digit (c : ascii) : bool := between 48 57 c.

(** [str.isspace] on code points below 256. *)
Definition isspace (c : ascii) : bool :=
  between 9 13 c || between 28 32 c || (ord c =? 133)%N || (ord c =? 160)%N.

(** [str.lower] on code points below 256: A-Z, and the Latin-1 capitals
    U+00C0..U+00DE except the multiplication sign U+00D7. *)
Definition lower_char (c : ascii) : ascii :=
  if between 65 90 c || (between 192 222 c && negb (ord c =? 215)%N)
  then chr (ord c + 32) else c.

Fixpoint lower (s : string) : string :=
  match s with
  | EmptyString => EmptyString
  | String c s' => String (lower_char c) (lower s')
  end.

Fixpoint forallb_str (p : ascii -> bool) (s : string) : bool :=
  match s with
  | EmptyString => true
  | String c s' => p c && forallb_str p s'
  end.

Fixpoint filter_str (p : ascii -> bool) (s : string) : string :=
  match s with
  | EmptyString => EmptyString
  | String c s' => if p c then String c (filter_str p s') else filter_str p s'
  end.

(** [c in s] for a one-character [c]. *)
Fixpoint contains (c : ascii) (s : string) : bool :=
  match s with
  | EmptyString => false
  | String a s' => Ascii.eqb a c || contains c s'
  end.

(** [s.partition(c)]: the text before the first [c], whether there is one,
    and the text after it. *)
Fixpoint partition (c : ascii) (s : string) : string * bool * string :=
  match s with
  | EmptyString => (EmptyString, false, EmptyString)
  | String a s' =>
      if Ascii.eqb a c then (EmptyString, true, s')
      else let '(h, found, t) := partition c s' in (String a h, found, t)
  end.

(** [s.rpartition(c)]: the same at the last [c]; without one the whole text
    is the third component. *)
Fixpoint rpartition (c : ascii) (s : string) : string * bool * string :=
  match s with
  | EmptyString => (EmptyString, false, EmptyString)
  | String a s' =>
      let '(h, found, t) := rpartition c s' in
      if found then (String a h, true, t)
      else if Ascii.eqb a c then (EmptyString, true, s')
      else (EmptyString, false, String a t)
  end.

Fixpoint lstrip (p : ascii -> bool) (s : string) : string :=
  match s with
  | EmptyString => EmptyString
  | String a s' => if p a then lstrip p s' else s
  end.

Fixpoint rstrip (p : ascii -> bool) (s : string) : string :=
  match s with
  | EmptyString => EmptyString
  | String a s' =>
      match rstrip p s' with
      | EmptyString => if p a then EmptyString else String a EmptyString
      | r => String a r
      end
  end.

(** [s.strip()] *)
Definition strip (s : string) : string := lstrip isspace (rstrip isspace s).

(** Truth value of a [str] ([if s:], [not s]). *)
Definition nonempty (s : string) : bool :=
  match s with
  | EmptyString => false
  | String _ _ => true
  end.

(** [s.isascii()] *)
Definition isascii (s : string) : bool := forallb_str is_ascii_char s.

(** [needle in s] for two strings. *)
Fixpoint is_substring (needle s : string) : bool :=
  String.prefix needle s ||
  match s with
  | EmptyString => false
  | String _ s' => is_substring needle s'
  end.

(** The value of a string of ASCII digits, read in base ten. *)
Fixpoint digits_value (acc : Z) (s : string) : Z :=
  match s with
  | EmptyString => acc
  | String c s' => digits_value (10 * acc + (Z.of_N (ord c) - 48)) s'
  end.

(** What [json.loads] builds.  A number keeps its type only. *)
#[warnings="-register-all"]
Inductive json : Type :=
| JNull
| JBool (b : bool)
| JInt (n : Z)
| JFloat (literal : string)
| JString (s : string)
| JArray (items : list json)
| JObject (members : list (string * json)).

Definition type_name (v : json) : string :=
  match v with
  | JNull => "NoneType"
  | JBool _ => "bool"
  | JInt _ => "int"
  | JFloat _ => "float"
  | JString _ => "str"
  | JArray _ => "list"
  | JObject _ => "dict"
  end.

Definition json_eq_str (key : string) (v : json) : bool :=
  match v with
  | JString s => String.eqb s key
  | _ => false
  end.

(** [key in data] for a string [key]: a key of a dict, an item of a list,
    a part of a string; a number, a boolean or None is no container. *)
Definition py_in (key : string) (data : json) : outcome bool :=
  match data with
  | JObject members => Return (existsb (fun kv => String.eqb (fst kv) key) members)
  | JArray items => Return (existsb (json_eq_str key) items)
  | JString s => Return (is_substring key s)
  | _ => Raise (mk_exn TypeError
                  ("argument of type '" +:+ type_name data +:+ "' is not iterable"))
  end.

(** The library behaviour that the model takes as given. *)
Record Runtime : Type := {
  (** [json.loads(text)] *)
  json_loads : string -> outcome json;
  (** [data.decode()] for data that is not all ASCII *)
  decode_non_ascii : string -> outcome string;
  (** [urllib.parse._check_bracketed_host(hostname)] *)
  check_bracketed_host : string -> option exn;
  (** [repr(text)] *)
  repr : string -> string
}.

(** [data.decode()]: UTF-8; ASCII bytes are their own text. *)
Definition decode (rt : Runtime) (data : string) : outcome string :=
  if isascii data then Return data else decode_non_ascii rt data.

End Py.

Export Py.

Declare Scope py_scope.
Delimit Scope py_scope with py.
Notation "x <- m ;; k" := (bind m (fun x => k))
  (at level 100, m at next level, right associativity, only parsing) : py_scope.
Notation "'do' m ;; k" := (bind m (fun _ => k))
  (at level 100, m at next level, right associativity, only parsing) : py_scope.
Local Open Scope py_scope.

(** ** [urllib.parse]: the parts of [urlparse] that [check_server] reads *)

Module UrlParse.

(** Of the six components only the scheme and the network location are read
    by the script (through [scheme], [hostname] and [port]); the path, the
    parameters, the query and the fragment are cut off and not kept. *)
Record ParseResult : Set := { scheme : string; netloc : string }.

Definition invalid_ipv6_url : exn := mk_exn ValueError "Invalid IPv6 URL".

(** [scheme_chars] *)
Definition is_scheme_char (c : ascii) : bool :=
  is_ascii_alpha c || is_ascii_digit c ||
  Ascii.eqb c "+" || Ascii.eqb c "-" || Ascii.eqb c ".".

(** [_WHATWG_C0_CONTROL_OR_SPACE] *)
Definition is_c0_control_or_space (c : ascii) : bool := (ord c <=? 32)%N.

(** [_UNSAFE_URL_BYTES_TO_REMOVE]: tab, carriage return, line feed *)
Definition is_unsafe_url_byte (c : ascii) : bool :=
  (ord c =? 9)%N || (ord c =? 13)%N || (ord c =? 10)%N.

(** [url[:i]] and [url[i+1:]] for the first colon at [i > 0], when the first
    character is an ASCII letter and all of [url[:i]] are scheme characters. *)
Definition split_scheme (url : string) : string * string :=
  match url with
  | EmptyString => (EmptyString, url)
  | String c0 _ =>
      let '(before, found, after) := partition ":" url in
      if found && nonempty before && is_ascii_char c0 && is_ascii_alpha c0
         && forallb_str is_scheme_char before
      then (lower before, after)
      else (EmptyString, url)
  end.

(** [_splitnetloc(url, 2)] once [url[:2] == '//']: the text after the two
    slashes up to the first of [/], [?], [#]. *)
Fixpoint until_delim (s : string) : string :=
  match s with
  | EmptyString => EmptyString
  | String c s' =>
      if Ascii.eqb c "/" || Ascii.eqb c "?" || Ascii.eqb c "#" then EmptyString
      else String c (until_delim s')
  end.

(** [_check_bracketed_netloc] *)
Definition check_bracketed_netloc (rt : Runtime) (netloc : string) : option exn :=
  let '(_, _, hostname_and_port) := rpartition "@" netloc in
  let '(before_bracket, have_open_br, bracketed) := partition "[" hostname_and_port in
  if have_open_br then
    if nonempty before_bracket then Some invalid_ipv6_url
    else
      let '(hostname, _, port) := partition "]" bracketed in
      if nonempty port && negb (String.prefix ":" port) then Some invalid_ipv6_url
      else check_bracketed_host rt hostname
  else
    let '(hostname, _, _) := partition ":" hostname_and_port in
    check_bracketed_host rt hostname.

(** [urlparse(url)], with the default [scheme=''] and [allow_fragments=True].
    The NFKC check of [_checknetloc] passes on every netloc of code points
    below 256: normalising them yields none of [/ ? # @ :]. *)
Definition urlparse (rt : Runtime) (url : string) : outcome ParseResult :=
  let url := lstrip is_c0_control_or_space url in
  let url := filter_str (fun c => negb (is_unsafe_url_byte c)) url in
  let '(scheme, url) := split_scheme url in
  match url with
  | String "/" (String "/" rest) =>
      let netloc := until_delim rest in
      let lb := contains "[" netloc in
      let rb := contains "]" netloc in
      if (lb && negb rb) || (rb && negb lb) then Raise invalid_ipv6_url
      else if lb && rb then
        match check_bracketed_netloc rt netloc with
        | Some e => Raise e
        | None => Return {| scheme := scheme; netloc := netloc |}
        end
      else Return {| scheme := scheme; netloc := netloc |}
  | _ => Return {| scheme := scheme; netloc := EmptyString |}
  end.

(** [_hostinfo]: the host name and the port text; [None] for no port. *)
Definition _hostinfo (r : ParseResult) : string * option string :=
  let '(_, _, hostinfo) := rpartition "@" (netloc r) in
  let '(_, have_open_br, bracketed) := partition "[" hostinfo in
  let '(hostname, port) :=
    if have_open_br then
      let '(hostname, _, port) := partition "]" bracketed in
      let '(_, _, port) := partition ":" port in
      (hostname, port)
    else
      let '(hostname, _, port) := partition ":" hostinfo in
      (hostname, port) in
  (hostname, if nonempty port then Some port else None).

(** The [hostname] property: [None] for an empty host, otherwise the host in
    lower case, a zone after [%] kept as it is. *)
Definition hostname (r : ParseResult) : option string :=
  let hostname := fst (_hostinfo r) in
  if nonempty hostname then
    let '(hostname, percent, zone) := partition "%" hostname in
    Some (lower hostname +:+ (if percent then "%" else EmptyString) +:+ zone)
  else None.

(** [int(port)] for a text of ASCII digits: CPython refuses more than 4300
    digits. *)
Definition int_max_str_digits : nat := 4300.

Definition int_of_digits (text : string) : outcome Z :=
  if Nat.leb (String.length text) int_max_str_digits then Return (digits_value 0 text)
  else Raise (mk_exn ValueError
         ("Exceeds the limit (4300 digits) for integer string conversion: value has "
          +:+ pretty (String.length text)
          +:+ " digits; use sys.set_int_max_str_digits() to increase the limit")).

(** The [port] property. *)
Definition port (rt : Runtime) (r : ParseResult) : outcome (option Z) :=
  match snd (_hostinfo r) with
  | Some port =>
      port <- (if forallb_str is_ascii_digit port
               then int_of_digits port
               else Raise (mk_exn ValueError
                      ("Port could not be cast to integer value as " +:+ repr rt port)));;
      if negb ((0 <=? port)%Z && (port <=? 65535)%Z)
      then Raise (mk_exn ValueError "Port out of range 0-65535")
      else Return (Some port)
  | None => Return None
  end.

End UrlParse.

(** ** The network, as one run of the script meets it *)

(** What the socket of one connection attempt does, call by call.  A call
    that raises carries its exception.  [conn_recv] lists the results of the
    successive [recv(4096)] calls; after them the peer has closed the
    connection and [recv] returns no bytes.  A peer that goes on sending data
    without a line feed for ever keeps the read loop running: the runs of
    this record are those in which the peer's data ends, and module [Endless]
    below has the probes over an unbounded stream of [recv] results. *)
Record connection : Type := {
  (** [ssl.create_default_context()] and the two settings (TLS probe only) *)
  conn_context : option exn;
  (** [socket.socket(AF_INET, SOCK_STREAM)] and [settimeout(timeout)] *)
  conn_socket : option exn;
  (** [context.wrap_socket(sock, server_hostname=host)] (TLS probe only) *)
  conn_wrap : option exn;
  (** [connect((host, port))]; for a TLS socket this includes the handshake *)
  conn_connect : option exn;
  (** [sendall(data)] *)
  conn_sendall : string -> option exn;
  conn_recv : list (outcome string)
}.

(** The connection met by a plain socket and by a TLS socket that connect to
    [(host, port)] with the given timeout. *)
Record network : Type := {
  plain : string -> Z -> Z -> connection;
  tls : string -> Z -> Z -> connection
}.

(** ** The script *)

Module HealthCheck.

Import UrlParse.

(** [json.dumps({"id": 1, "method": "blockchain.headers.subscribe",
    "params": []}) + "\n"] *)
Definition request : string :=
  let q := String QUOTE EmptyString in
  "{" +:+ q +:+ "id" +:+ q +:+ ": 1, "
  +:+ q +:+ "method" +:+ q +:+ ": " +:+ q +:+ "blockchain.headers.subscribe" +:+ q +:+ ", "
  +:+ q +:+ "params" +:+ q +:+ ": []}" +:+ String LF EmptyString.

(** The read loop of both probes:
    [while True: chunk = recv(4096); if not chunk: break; response += chunk;
     if b"\n" in response: break] *)
Fixpoint recv_loop (recv : list (outcome string)) (response : string) : outcome string :=
  match recv with
  | [] => Return response
  | Raise e :: _ => Raise e
  | Return chunk :: later =>
      if negb (nonempty chunk) then Return response
      else
        let response := response +:+ chunk in
        if contains LF response then Return response
        else recv_loop later response
  end.

Section Script.

Context (rt : Runtime).

(** The [try] block of [check_tcp_server]. *)
Definition check_tcp_server_try (net : network) (host : string) (port : Z) (timeout : Z)
  : outcome (bool * string) :=
  let sock := plain net host port timeout in
  do call (conn_socket sock);;
  do call (conn_connect sock);;
  do call (conn_sendall sock request);;
  response <- recv_loop (conn_recv sock) EmptyString;;
  text <- decode rt response;;
  let response_str := strip text in
  if nonempty response_str then
    data <- json_loads rt response_str;;
    has_result <- py_in "result" data;;
    if has_result then Return (true, "OK")
    else
      has_error <- py_in "error" data;;
      if has_error then Return (true, "OK")
      else Return (false, "No valid response")
  else Return (false, "No valid response").

Definition check_tcp_server (net : network) (host : string) (port : Z) (timeout : Z)
  : outcome (bool * string) :=
  try_except (check_tcp_server_try net host port timeout)
    [ (TimeoutError, fun _ => Return (false, "Timeout"));
      (ConnectionRefusedError, fun _ => Return (false, "Connection refused"));
      (Exception, fun e => Return (false, exc_str e)) ].

(** The [try] block of [check_ssl_server]. *)
Definition check_ssl_server_try (net : network) (host : string) (port : Z) (timeout : Z)
  : outcome (bool * string) :=
  let ssock := tls net host port timeout in
  do call (conn_context ssock);;
  do call (conn_socket ssock);;
  do call (conn_wrap ssock);;
  do call (conn_connect ssock);;
  do call (conn_sendall ssock request);;
  response <- recv_loop (conn_recv ssock) EmptyString;;
  text <- decode rt response;;
  let response_str := strip text in
  if nonempty response_str then
    data <- json_loads rt response_str;;
    has_result <- py_in "result" data;;
    if has_result then Return (true, "OK")
    else
      has_error <- py_in "error" data;;
      if has_error then Return (true, "OK")
      else Return (false, "No valid response")
  else Return (false, "No valid response").

Definition check_ssl_server (net : network) (host : string) (port : Z) (timeout : Z)
  : outcome (bool * string) :=
  try_except (check_ssl_server_try net host port timeout)
    [ (TimeoutError, fun _ => Return (false, "Timeout"));
      (ConnectionRefusedError, fun _ => Return (false, "Connection refused"));
      (SSLError, fun e => Return (false, "SSL error: " +:+ exc_str e));
      (Exception, fun e => Return (false, exc_str e)) ].

(** The default of the [timeout] parameter of both probes. *)
Definition default_timeout : Z := 2.

(** Truth value of [parsed.hostname] and of [parsed.port]. *)
Definition truthy_host (host : option string) : bool :=
  match host with
  | Some h => nonempty h
  | None => false
  end.

Definition truthy_port (port : option Z) : bool :=
  match port with
  | Some p => negb (p =? 0)%Z
  | None => false
  end.

Definition check_server (net : network) (url : string) : outcome (string * bool * string) :=
  parsed <- urlparse rt url;;
  let protocol := scheme parsed in
  let host := hostname parsed in
  port <- port rt parsed;;
  if negb (truthy_host host) || negb (truthy_port port) then
    Return (url, false, "Invalid URL format")
  else
    let host := default EmptyString host in
    let port := default 0%Z port in
    if String.eqb protocol "tcp" then
      checked <- check_tcp_server net host port default_timeout;;
      let '(success, message) := checked in
      Return (url, success, message)
    else if String.eqb protocol "ssl" then
      checked <- check_ssl_server net host port default_timeout;;
      let '(success, message) := checked in
      Return (url, success, message)
    else
      Return (url, false, "Unknown protocol: " +:+ protocol).

(** [a <= b] on [str]: by code points, a proper prefix before its extensions.
    [list.sort()] puts a list of strings in this order. *)
Definition str_le (a b : string) : Prop := String.leb a b = true.
Definition str_lt (a b : string) : Prop := String.ltb a b = true.

#[global] Instance str_le_dec : RelDecision str_le.
Proof. intros a b. unfold str_le. apply _. Defined.

(** [all_servers = list(set(rust_servers + ts_servers)); all_servers.sort()].
    The order in which a set is listed is not specified; sorting makes the
    result independent of it (lemma [sort_order_irrelevant]). *)
Definition all_servers (rust_servers ts_servers : list string) : list string :=
  merge_sort str_le (elements (list_to_set (rust_servers ++ ts_servers) : gset string)).

(** A future of the executor: the URL it was submitted for (its value in the
    [futures] dict) and what [future.result()] gives, the result or the
    exception of the call. *)
Definition future : Type := (string * outcome (string * bool * string))%type.

(** [{executor.submit(check_server, url): url for url in all_servers}], in
    the order of submission.  [world url] is the network as the call for
    [url] meets it. *)
Definition submit_all (world : string -> network) (servers : list string) : list future :=
  map (fun url => (url, check_server (world url) url)) servers.

(** The body of [for future in as_completed(futures)], over the futures in
    the order in which they complete. *)
Fixpoint collect (completed : list future)
    (working : list string) (broken : list (string * string))
  : outcome (list string * list (string * string)) :=
  match completed with
  | [] => Return (working, broken)
  | fut :: later =>
      res <- snd fut;;
      let '(url, success, message) := res in
      if success : bool then collect later (working ++ [url]) broken
      else collect later working (broken ++ [(url, message)])
  end.

Definition new_server : string := "tcp://bitcoin.aranguren.org:50001".

(** What a run that reaches the summary has computed. *)
Record summary : Type := {
  servers : list string;
  working : list string;
  broken : list (string * string);
  (** [new_server in working], when [new_server in all_servers] *)
  new_server_working : option bool;
  exit_code : Z
}.

(** [main], from the two extracted lists on.  [as_completed] is the order in
    which the executor hands the futures back. *)
Definition main (world : string -> network) (as_completed : list future -> list future)
    (rust_servers ts_servers : list string) : outcome summary :=
  let all_servers := all_servers rust_servers ts_servers in
  let futures := submit_all world all_servers in
  collected <- collect (as_completed futures) [] [];;
  let '(working, broken) := collected in
  Return {| servers := all_servers;
            working := working;
            broken := broken;
            new_server_working :=
              if bool_decide (new_server ∈ all_servers)
              then Some (bool_decide (new_server ∈ working)) else None;
            exit_code := if Nat.eqb (List.length broken) 0 then 0%Z else 1%Z |}.

(** *** Views of the script used in the statements

    These definitions add nothing to the script: each is tied to the
    function it reads by a lemma below. *)

(** The two probes under one name. *)
Inductive transport : Set := Plaintext | Encrypted.

Definition probe_try (t : transport) : network -> string -> Z -> Z -> outcome (bool * string) :=
  match t with
  | Plaintext => check_tcp_server_try
  | Encrypted => check_ssl_server_try
  end.

Definition probe (t : transport) : network -> string -> Z -> Z -> outcome (bool * string) :=
  match t with
  | Plaintext => check_tcp_server
  | Encrypted => check_ssl_server
  end.

Definition connection_of (t : transport) (net : network) : string -> Z -> Z -> connection :=
  match t with
  | Plaintext => plain net
  | Encrypted => tls net
  end.

(** The detail that the [except] clauses of a probe give for an exception. *)
Definition error_detail (t : transport) (e : exn) : string :=
  match exc_class e, t with
  | TimeoutError, _ => "Timeout"
  | ConnectionRefusedError, _ => "Connection refused"
  | SSLError, Encrypted => "SSL error: " +:+ exc_str e
  | _, _ => exc_str e
  end.

(** Every call of the probe up to and including [sendall] returns. *)
Definition established (t : transport) (c : connection) : Prop :=
  (t = Encrypted -> conn_context c = None /\ conn_wrap c = None) /\
  conn_socket c = None /\ conn_connect c = None /\ conn_sendall c request = None.

(** [response_str]: the accumulated buffer of the read loop, decoded and
    stripped. *)
Definition received (c : connection) : outcome string :=
  response <- recv_loop (conn_recv c) EmptyString;;
  text <- decode rt response;;
  Return (strip text).

(** The lines of both probes after [response_str] is computed. *)
Definition judge (response_str : string) : outcome (bool * string) :=
  if nonempty response_str then
    data <- json_loads rt response_str;;
    has_result <- py_in "result" data;;
    if has_result then Return (true, "OK")
    else
      has_error <- py_in "error" data;;
      if has_error then Return (true, "OK")
      else Return (false, "No valid response")
  else Return (false, "No valid response").

Definition has_key (key : string) (members : list (string * json)) : Prop :=
  key ∈ map fst members.

#[global] Instance has_key_dec key members : Decision (has_key key members).
Proof. unfold has_key. apply _. Defined.

(** What [check_server] decides before it calls a probe: a failure of its
    own, or the probe to call with its host and port. *)
Inductive route : Set :=
| Reject (detail : string)
| ProbeTcp (host : string) (port : Z)
| ProbeSsl (host : string) (port : Z).

Definition route_of (url : string) : outcome route :=
  parsed <- urlparse rt url;;
  port <- port rt parsed;;
  match hostname parsed, port with
  | Some host, Some port =>
      if negb (nonempty host) || (port =? 0)%Z then Return (Reject "Invalid URL format")
      else if String.eqb (scheme parsed) "tcp" then Return (ProbeTcp host port)
      else if String.eqb (scheme parsed) "ssl" then Return (ProbeSsl host port)
      else Return (Reject ("Unknown protocol: " +:+ scheme parsed))
  | _, _ => Return (Reject "Invalid URL format")
  end.

Definition follow (net : network) (url : string) (r : route) : outcome (string * bool * string) :=
  match r with
  | Reject detail => Return (url, false, detail)
  | ProbeTcp host port =>
      checked <- check_tcp_server net host port default_timeout;;
      Return (url, fst checked, snd checked)
  | ProbeSsl host port =>
      checked <- check_ssl_server net host port default_timeout;;
      Return (url, fst checked, snd checked)
  end.

(** Every call submitted by [main] returns. *)
Definition all_return (world : string -> network) (urls : list string) : Prop :=
  forall url, In url urls -> exists r, check_server (world url) url = Return r.

(** The URLs of the [broken] list. *)
Definition broken_urls (s : summary) : list string := map fst (broken s).

(** What the futures that returned have returned, and how the loop files it. *)
Definition results (fs : list future) : list (string * bool * string) :=
  omap (fun fut : future => match snd fut with Return r => Some r | Raise _ => None end) fs.

Definition successes (rs : list (string * bool * string)) : list string :=
  omap (fun r : string * bool * string =>
          let '(url, success, _) := r in if success then Some url else None) rs.

Definition failures (rs : list (string * bool * string)) : list (string * string) :=
  omap (fun r : string * bool * string =>
          let '(url, success, message) := r in
          if success then None else Some (url, message)) rs.

End Script.

End HealthCheck.

(** ** Runs used in the examples *)

Module Sample.

Import HealthCheck.

Definition quoted (s : string) : string :=
  String QUOTE (s +:+ String QUOTE EmptyString).

(** The reply of a live server: an object with the members id and result. *)
Definition reply_ok : string :=
  "{" +:+ quoted "id" +:+ ":1," +:+ quoted "result" +:+ ":[0," +:+ quoted "abc" +:+ "]}".

Definition reply_ok_value : json :=
  JObject [("id", JInt 1); ("result", JArray [JInt 0; JString "abc"])].

(** [json.loads] on the texts of the examples: the empty object, the reply
    above, and texts that it refuses at their first character. *)
Definition sample_json_loads (text : string) : outcome json :=
  if String.eqb text "{}" then Return (JObject [])
  else if String.eqb text reply_ok then Return reply_ok_value
  else Raise (mk_exn JSONDecodeError "Expecting value: line 1 column 1 (char 0)").

(** The examples use ASCII data, host names without brackets and port texts
    that [repr] only puts between quotes. *)
Definition runtime : Runtime := {|
  json_loads := sample_json_loads;
  decode_non_ascii := fun _ =>
    Raise (mk_exn UnicodeDecodeError "'utf-8' codec can't decode byte");
  check_bracketed_host := fun _ => None;
  repr := fun s => "'" +:+ s +:+ "'"
|}.

(** A peer that answers with one line. *)
Definition replying (reply : string) : connection := {|
  conn_context := None; conn_socket := None; conn_wrap := None;
  conn_connect := None; conn_sendall := fun _ => None;
  conn_recv := [Return (reply +:+ String LF EmptyString)]
|}.

(** A peer that accepts the connection and closes it without sending. *)
Definition closing : connection := {|
  conn_context := None; conn_socket := None; conn_wrap := None;
  conn_connect := None; conn_sendall := fun _ => None;
  conn_recv := []
|}.

(** A peer whose [connect] fails with [e]. *)
Definition failing (e : exn) : connection := {|
  conn_context := None; conn_socket := None; conn_wrap := None;
  conn_connect := Some e; conn_sendall := fun _ => None;
  conn_recv := []
|}.

(** A network in which every connection goes the same way. *)
Definition every (c : connection) : network :=
  {| plain := fun _ _ _ => c; tls := fun _ _ _ => c |}.


(** A world in which the servers on port 50001 answer and the others refuse. *)
Definition refused : exn := mk_exn ConnectionRefusedError "[Errno 111] Connection refused".

Definition by_port : network :=
  let pick (port : Z) := if (port =? 50001)%Z then replying reply_ok else failing refused in
  {| plain := fun _ port _ => pick port; tls := fun _ port _ => pick port |}.

Definition world : string -> network := fun _ => by_port.

Definition urls : list string :=
  ["tcp://b.example:50001"; "ssl://a.example:50002"; "tcp://b.example:50001";
   "ftp://c.example:21"].

End Sample.

(** ** Reading the server lists, and the script as a whole *)

Module Files.

Import HealthCheck.

(** [s] without the prefix [p], when it starts with it. *)
Fixpoint after_prefix (p s : string) : option string :=
  match p, s with
  | EmptyString, _ => Some s
  | String a p', String b s' => if Ascii.eqb a b then after_prefix p' s' else None
  | String _ _, EmptyString => None
  end.

(** A match of the Rust pattern at the start of [s]: the text Url::parse, an
    opening parenthesis, a quote, the group (one or more characters other
    than a quote), a quote and a closing parenthesis.  The result is the
    group and the text after the match.  The group takes every character up
    to the next quote; a shorter group would have to be followed by a quote
    and is not, so there is nothing to backtrack to. *)
Definition match_rust (s : string) : option (string * string) :=
  match after_prefix ("Url::parse(" +:+ String QUOTE EmptyString) s with
  | Some rest =>
      let '(group, closed, after) := partition QUOTE rest in
      if nonempty group && closed then
        match after with
        | String c after' => if Ascii.eqb c ")" then Some (group, after') else None
        | EmptyString => None
        end
      else None
  | None => None
  end.

(** A match of the TypeScript pattern at the start of [s]: a quote, the group
    (tcp or ssl, then ://, then one or more characters other than a quote)
    and a quote.  [match_scheme] is the match after the opening quote for
    one of the two schemes. *)
Definition match_scheme (scheme_part rest : string) : option (string * string) :=
  match after_prefix scheme_part rest with
  | Some body =>
      let '(run, closed, after) := partition QUOTE body in
      if nonempty run && closed then Some (scheme_part +:+ run, after) else None
  | None => None
  end.

Definition match_typescript (s : string) : option (string * string) :=
  match s with
  | String q rest =>
      if Ascii.eqb q QUOTE then
        match match_scheme "tcp://" rest with
        | Some m => Some m
        | None => match_scheme "ssl://" rest
        end
      else None
  | EmptyString => None
  end.

(** [re.findall(pattern, content)] for a pattern with one group that matches
    no empty text: the groups of the matches found from left to right, each
    search starting where the match before it ended.  [fuel] bounds the
    number of positions tried; one more than the length of the text is
    enough (lemma [findall_fuel]). *)
Fixpoint findall (match_at : string -> option (string * string)) (fuel : nat) (s : string)
  : list string :=
  match fuel with
  | O => []
  | S fuel =>
      match match_at s with
      | Some (group, after) => group :: findall match_at fuel after
      | None =>
          match s with
          | EmptyString => []
          | String _ s' => findall match_at fuel s'
          end
      end
  end.

(** [extract_servers_from_rust], on the text of the file. *)
Definition extract_servers_from_rust (content : string) : list string :=
  findall match_rust (S (String.length content)) content.

(** [extract_servers_from_typescript], on the text of the file. *)
Definition extract_servers_from_typescript (content : string) : list string :=
  findall match_typescript (S (String.length content)) content.

(** The exit status of the script: [main] from its first line.  A file is
    [None] when it does not exist, otherwise its text. *)
Definition script (rt : Runtime) (world : string -> network)
    (as_completed : list future -> list future)
    (rust_file ts_file : option string) : outcome Z :=
  match rust_file with
  | None => Return 1%Z
  | Some rust_content =>
      match ts_file with
      | None => Return 1%Z
      | Some ts_content =>
          let rust_servers := extract_servers_from_rust rust_content in
          let ts_servers := extract_servers_from_typescript ts_content in
          s <- main rt world as_completed rust_servers ts_servers;;
          Return (exit_code s)
      end
  end.

(** A Rust source text: calls of Url::parse on a quoted URL, each after some
    other text, and a last piece of text. *)
Definition rust_call (url : string) : string :=
  "Url::parse(" +:+ String QUOTE EmptyString +:+ url +:+ String QUOTE EmptyString +:+ ")".

(** A source text: the written form of each URL after some other text, and
    a last piece of text. *)
Fixpoint source_text (written : string -> string) (items : list (string * string))
    (last : string) : string :=
  match items with
  | [] => last
  | (before, url) :: items => before +:+ written url +:+ source_text written items last
  end.

Definition rust_text : list (string * string) -> string -> string :=
  source_text rust_call.

(** A TypeScript source text: quoted strings, each after some other text. *)
Definition quoted (s : string) : string :=
  String QUOTE EmptyString +:+ s +:+ String QUOTE EmptyString.

Definition typescript_text : list (string * string) -> string -> string :=
  source_text quoted.

(** [p] and [s] agree as far as both go: a match that begins with [p] may
    start at the head of [s], depending on what follows [s]. *)
Fixpoint may_start (p s : string) : bool :=
  match p, s with
  | String a p', String b s' => Ascii.eqb a b && may_start p' s'
  | _, _ => true
  end.

(** No match that begins with one of [prefixes] can start inside [s],
    whatever text follows [s]. *)
Fixpoint calm (prefixes : list string) (s : string) : bool :=
  match s with
  | EmptyString => true
  | String _ s' => forallb (fun p => negb (may_start p s)) prefixes && calm prefixes s'
  end.

(** How a match of each pattern begins. *)
Definition rust_prefixes : list string :=
  ["Url::parse(" +:+ String QUOTE EmptyString].

Definition typescript_prefixes : list string :=
  [String QUOTE "tcp://"; String QUOTE "ssl://"].

(** A URL as the TypeScript pattern accepts it. *)
Definition electrum_url (url : string) : Prop :=
  exists rest, (url = "tcp://" +:+ rest \/ url = "ssl://" +:+ rest) /\
               rest <> EmptyString /\ contains QUOTE rest = false.

(** Two connections that differ at most in what [recv] returns. *)
Definition same_setup (c1 c2 : connection) : Prop :=
  conn_context c1 = conn_context c2 /\ conn_socket c1 = conn_socket c2 /\
  conn_wrap c1 = conn_wrap c2 /\ conn_connect c1 = conn_connect c2 /\
  conn_sendall c1 request = conn_sendall c2 request.

(** The pieces of a line that arrive before the chunk that ends it. *)
Definition line_piece (piece : string) : Prop :=
  nonempty piece = true /\ contains LF piece = false.

Fixpoint concat_str (pieces : list string) : string :=
  match pieces with
  | [] => EmptyString
  | piece :: pieces => piece +:+ concat_str pieces
  end.

(** The verdict of [check_server] on [url] in a run. *)
Definition succeeds (rt : Runtime) (world : string -> network) (url : string) : Prop :=
  exists message, check_server rt (world url) url = Return (url, true, message).

Definition fails_with (rt : Runtime) (world : string -> network) (url message : string) : Prop :=
  check_server rt (world url) url = Return (url, false, message).

End Files.

(** ** Source texts used in the examples *)

Module FileSample.

Import Files.

Definition rust_items : list (string * string) :=
  [ ("use url::Url;" +:+ String LF EmptyString +:+ "let a = ", "ssl://electrum.example:50002");
    (";" +:+ String LF EmptyString +:+ "let b = ", "tcp://node.example:50001") ].

Definition rust_content : string := rust_text rust_items ";".

Definition typescript_items : list (string * string) :=
  [ ("export const servers = [", "ssl://electrum.example:50002");
    (", ", "tcp://node.example:50001");
    (", ", "tcp://other.example:50001") ].

Definition typescript_content : string := typescript_text typescript_items "];".

End FileSample.

(** ** Replies used in the examples *)

Module ReplySample.

Import HealthCheck Sample.

(** The reply of a live server in two chunks, the second one with the line
    feed and the start of a further line. *)
Definition first_chunk : string := "{" +:+ Sample.quoted "id" +:+ ":1,".

Definition second_chunk : string :=
  Sample.quoted "result" +:+ ":[0," +:+ Sample.quoted "abc" +:+ "]}"
  +:+ String LF EmptyString.

Definition in_chunks : connection := {|
  conn_context := None; conn_socket := None; conn_wrap := None;
  conn_connect := None; conn_sendall := fun _ => None;
  conn_recv := [Return first_chunk; Return second_chunk; Return "never read"]
|}.

(** A runtime whose decoder also knows the number 5. *)
Definition runtime : Runtime := {|
  json_loads := fun text =>
    if String.eqb text "5" then Return (JInt 5) else sample_json_loads text;
  decode_non_ascii := decode_non_ascii Sample.runtime;
  check_bracketed_host := check_bracketed_host Sample.runtime;
  repr := repr Sample.runtime
|}.

End ReplySample.

(** ** The probes against a peer that need not stop sending *)

Module Endless.

Import HealthCheck.

(** A run observed for a bounded number of [recv] calls: it is still in its
    read loop, or it is over with a result or an exception. *)
Inductive run (A : Type) : Type :=
| Running
| Done (result : outcome A).
Arguments Running {A}.
Arguments Done {A} result.

(** The read loop of both probes, with [recv n] the result of the [n]-th
    call of [recv(4096)] and at most [fuel] calls made. *)
Fixpoint recv_loop_for (fuel : nat) (recv : nat -> outcome string) (n : nat)
    (response : string) : run string :=
  match fuel with
  | O => Running
  | S fuel =>
      match recv n with
      | Raise e => Done (Raise e)
      | Return chunk =>
          if negb (nonempty chunk) then Done (Return response)
          else
            let response := response +:+ chunk in
            if contains LF response then Done (Return response)
            else recv_loop_for fuel recv (S n) response
      end
  end.

Section Script.

Context (rt : Runtime).

(** The [try] block of [check_tcp_server]; the [recv] calls of its socket are
    answered by [recv], the other calls as the network says. *)
Definition check_tcp_server_try_for (fuel : nat) (net : network) (host : string)
    (port : Z) (timeout : Z) (recv : nat -> outcome string) : run (bool * string) :=
  let sock := plain net host port timeout in
  match (do call (conn_socket sock);;
         do call (conn_connect sock);;
         call (conn_sendall sock request)) with
  | Raise e => Done (Raise e)
  | Return _ =>
      match recv_loop_for fuel recv 0 EmptyString with
      | Running => Running
      | Done read =>
          Done (response <- read;;
                text <- decode rt response;;
                let response_str := strip text in
                if nonempty response_str then
                  data <- json_loads rt response_str;;
                  has_result <- py_in "result" data;;
                  if has_result then Return (true, "OK")
                  else
                    has_error <- py_in "error" data;;
                    if has_error then Return (true, "OK")
                    else Return (false, "No valid response")
                else Return (false, "No valid response"))
      end
  end.

Definition check_tcp_server_for (fuel : nat) (net : network) (host : string)
    (port : Z) (timeout : Z) (recv : nat -> outcome string) : run (bool * string) :=
  match check_tcp_server_try_for fuel net host port timeout recv with
  | Running => Running
  | Done body =>
      Done (try_except body
              [ (TimeoutError, fun _ => Return (false, "Timeout"));
                (ConnectionRefusedError, fun _ => Return (false, "Connection refused"));
                (Exception, fun e => Return (false, exc_str e)) ])
  end.

(** The [try] block of [check_ssl_server], in the same way. *)
Definition check_ssl_server_try_for (fuel : nat) (net : network) (host : string)
    (port : Z) (timeout : Z) (recv : nat -> outcome string) : run (bool * string) :=
  let ssock := tls net host port timeout in
  match (do call (conn_context ssock);;
         do call (conn_socket ssock);;
         do call (conn_wrap ssock);;
         do call (conn_connect ssock);;
         call (conn_sendall ssock request)) with
  | Raise e => Done (Raise e)
  | Return _ =>
      match recv_loop_for fuel recv 0 EmptyString with
      | Running => Running
      | Done read =>
          Done (response <- read;;
                text <- decode rt response;;
                let response_str := strip text in
                if nonempty response_str then
                  data <- json_loads rt response_str;;
                  has_result <- py_in "result" data;;
                  if has_result then Return (true, "OK")
                  else
                    has_error <- py_in "error" data;;
                    if has_error then Return (true, "OK")
                    else Return (false, "No valid response")
                else Return (false, "No valid response"))
      end
  end.

Definition check_ssl_server_for (fuel : nat) (net : network) (host : string)
    (port : Z) (timeout : Z) (recv : nat -> outcome string) : run (bool * string) :=
  match check_ssl_server_try_for fuel net host port timeout recv with
  | Running => Running
  | Done body =>
      Done (try_except body
              [ (TimeoutError, fun _ => Return (false, "Timeout"));
                (ConnectionRefusedError, fun _ => Return (false, "Connection refused"));
                (SSLError, fun e => Return (false, "SSL error: " +:+ exc_str e));
                (Exception, fun e => Return (false, exc_str e)) ])
  end.


Definition probe_for (fuel : nat) (t : transport)
  : network -> string -> Z -> Z -> (nat -> outcome string) -> run (bool * string) :=
  match t with
  | Plaintext => check_tcp_server_for fuel
  | Encrypted => check_ssl_server_for fuel
  end.

End Script.


(** A peer whose data ends: the calls of a finite script, after which the
    peer has closed and [recv] returns no bytes. *)
Definition script_stream (script : list (outcome string)) : nat -> outcome string :=
  fun n => nth n script (Return EmptyString).




End Endless.

(** ** Properties *)

(** *** Exceptions and the probes *)

Section Probes.

Context (rt : Runtime).

Import HealthCheck.

(** A probe is its [try] block with the [except] clauses applied to what the
    block raises. *)
Lemma probe_handles (t : transport) net host port timeout :
  probe rt t net host port timeout =
  match probe_try rt t net host port timeout with
  | Return r => Return r
  | Raise e => Return (false, error_detail t e)
  end.
Proof.
  destruct t; simpl; unfold check_tcp_server, check_ssl_server, try_except.
  - destruct (check_tcp_server_try rt net host port timeout) as [r|[c m]]; [done|].
    by destruct c.
  - destruct (check_ssl_server_try rt net host port timeout) as [r|[c m]]; [done|].
    by destruct c.
Qed.

Lemma probe_total (t : transport) net host port timeout :
  exists r, probe rt t net host port timeout = Return r.
Proof. rewrite probe_handles. destruct (probe_try _ _ _ _ _ _); by eexists. Qed.

(** Once the connection is set up and the request sent, the probe is the
    reading of the reply followed by its judgement. *)
Lemma probe_try_established (t : transport) net host port timeout :
  established t (connection_of t net host port timeout) ->
  probe_try rt t net host port timeout =
  (response_str <- received rt (connection_of t net host port timeout);;
   judge rt response_str).
Proof.
  intros (Htls & Hsock & Hconn & Hsend).
  destruct t; simpl in *.
  - unfold check_tcp_server_try, received. rewrite Hsock, Hconn, Hsend. simpl.
    destruct (recv_loop _ _) as [response|e]; simpl; [|done].
    by destruct (decode rt response).
  - destruct (Htls eq_refl) as [Hctx Hwrap].
    unfold check_ssl_server_try, received.
    rewrite Hctx, Hsock, Hwrap, Hconn, Hsend. simpl.
    destruct (recv_loop _ _) as [response|e]; simpl; [|done].
    by destruct (decode rt response).
Qed.

(** The first call that raises ends the [try] block with its exception. *)
Lemma probe_try_connect_raises (t : transport) net host port timeout e :
  (t = Encrypted ->
   conn_context (connection_of t net host port timeout) = None /\
   conn_wrap (connection_of t net host port timeout) = None) ->
  conn_socket (connection_of t net host port timeout) = None ->
  conn_connect (connection_of t net host port timeout) = Some e ->
  probe_try rt t net host port timeout = Raise e.
Proof.
  intros Htls Hsock Hconn. destruct t; simpl in *.
  - unfold check_tcp_server_try. by rewrite Hsock, Hconn.
  - destruct (Htls eq_refl) as [Hctx Hwrap].
    unfold check_ssl_server_try. by rewrite Hctx, Hsock, Hwrap, Hconn.
Qed.

Lemma existsb_has_key key (members : list (string * json)) :
  existsb (fun kv => String.eqb (fst kv) key) members = true <-> has_key key members.
Proof.
  unfold has_key. rewrite existsb_exists, list_elem_of_In, in_map_iff. split.
  - intros ([k v] & Hin & Heq). apply String.eqb_eq in Heq. by exists (k, v).
  - intros ([k v] & Heq & Hin). exists (k, v). split; [done|]. by apply String.eqb_eq.
Qed.

Lemma nonempty_true (s : string) : s <> EmptyString -> nonempty s = true.
Proof. by destruct s. Qed.

Lemma judge_empty : judge rt EmptyString = Return (false, "No valid response").
Proof. done. Qed.

Lemma judge_object response_str members :
  response_str <> EmptyString ->
  json_loads rt response_str = Return (JObject members) ->
  judge rt response_str =
  Return (if bool_decide (has_key "result" members \/ has_key "error" members)
          then (true, "OK") else (false, "No valid response")).
Proof.
  intros Hne Hloads. unfold judge. rewrite (nonempty_true _ Hne), Hloads. simpl.
  destruct (existsb _ members) eqn:Hres.
  - apply existsb_has_key in Hres. by rewrite bool_decide_eq_true_2; [|left].
  - simpl. destruct (existsb (fun kv => String.eqb (fst kv) "error") members) eqn:Herr.
    + apply existsb_has_key in Herr. by rewrite bool_decide_eq_true_2; [|right].
    + rewrite bool_decide_eq_false_2; [done|].
      intros [H|H]; apply existsb_has_key in H; congruence.
Qed.

Lemma judge_not_json response_str e :
  response_str <> EmptyString ->
  json_loads rt response_str = Raise e ->
  judge rt response_str = Raise e.
Proof. intros Hne Hloads. unfold judge. by rewrite (nonempty_true _ Hne), Hloads. Qed.

(** The read loop stops at the first chunk that completes a line, without
    reading on; it stops when the peer has closed; a failing [recv] ends it. *)
Lemma recv_loop_line chunk later response :
  nonempty chunk = true ->
  contains LF (response +:+ chunk) = true ->
  recv_loop (Return chunk :: later) response = Return (response +:+ chunk).
Proof. intros Hchunk Hline. simpl. by rewrite Hchunk, Hline. Qed.

Lemma recv_loop_more chunk later response :
  nonempty chunk = true ->
  contains LF (response +:+ chunk) = false ->
  recv_loop (Return chunk :: later) response = recv_loop later (response +:+ chunk).
Proof. intros Hchunk Hline. simpl. by rewrite Hchunk, Hline. Qed.

Lemma recv_loop_closed later response :
  recv_loop [] response = Return response /\
  recv_loop (Return EmptyString :: later) response = Return response.
Proof. done. Qed.

Lemma recv_loop_raises e later response :
  recv_loop (Raise e :: later) response = Raise e.
Proof. done. Qed.

Lemma received_nothing (c : connection) :
  conn_recv c = [] -> received rt c = Return EmptyString.
Proof. intros Hrecv. unfold received. by rewrite Hrecv. Qed.


(** C3, as amended.  When the buffer of a probe, decoded and stripped, is not
    empty and [json.loads] rejects it, the probe fails with the text of the
    decoder's exception as its detail; No valid response is the detail when
    the parsed object has neither a result nor an error member. *)
Theorem probe_rejected_json_detail (t : transport) net host port timeout response_str :
  established t (connection_of t net host port timeout) ->
  received rt (connection_of t net host port timeout) = Return response_str ->
  response_str <> EmptyString ->
  (forall e,
     json_loads rt response_str = Raise e ->
     exc_class e = JSONDecodeError ->
     probe rt t net host port timeout = Return (false, exc_str e)) /\
  (forall members,
     json_loads rt response_str = Return (JObject members) ->
     ~ has_key "result" members -> ~ has_key "error" members ->
     probe rt t net host port timeout = Return (false, "No valid response")).
Proof.
  intros Hest Hrecv Hne.
  rewrite probe_handles, (probe_try_established _ _ _ _ _ Hest), Hrecv. simpl. split.
  - intros e Hloads Hclass. rewrite (judge_not_json _ _ Hne Hloads).
    unfold error_detail. by rewrite Hclass.
  - intros members Hloads Hres Herr. rewrite (judge_object _ _ Hne Hloads).
    rewrite bool_decide_eq_false_2; [done|]. by intros [?|?].
Qed.

(** C5.  Once the request is sent, a probe judges the accumulated buffer,
    decoded and stripped: a JSON object with a result or an error member is
    a success with detail OK; an empty buffer, in particular a peer that
    closes without sending, is a failure with detail No valid response; so
    is an object with neither member, such as the empty object. *)
Theorem probe_judges_reply (t : transport) net host port timeout :
  established t (connection_of t net host port timeout) ->
  (forall response_str members,
     received rt (connection_of t net host port timeout) = Return response_str ->
     response_str <> EmptyString ->
     json_loads rt response_str = Return (JObject members) ->
     has_key "result" members \/ has_key "error" members ->
     probe rt t net host port timeout = Return (true, "OK")) /\
  (received rt (connection_of t net host port timeout) = Return EmptyString ->
   probe rt t net host port timeout = Return (false, "No valid response")) /\
  (conn_recv (connection_of t net host port timeout) = [] ->
   probe rt t net host port timeout = Return (false, "No valid response")) /\
  (forall response_str members,
     received rt (connection_of t net host port timeout) = Return response_str ->
     response_str <> EmptyString ->
     json_loads rt response_str = Return (JObject members) ->
     ~ has_key "result" members -> ~ has_key "error" members ->
     probe rt t net host port timeout = Return (false, "No valid response")).
Proof.
  intros Hest.
  rewrite probe_handles, (probe_try_established _ _ _ _ _ Hest).
  repeat split.
  - intros response_str members -> Hne Hloads Hkey. simpl.
    rewrite (judge_object _ _ Hne Hloads). by rewrite bool_decide_eq_true_2.
  - by intros ->.
  - intros Hnone. by rewrite (received_nothing _ Hnone).
  - intros response_str members -> Hne Hloads Hres Herr. simpl.
    rewrite (judge_object _ _ Hne Hloads). rewrite bool_decide_eq_false_2; [done|].
    by intros [?|?].
Qed.

End Probes.

Section ProbeExamples.

Import HealthCheck Sample.

(** C3 as stated fails: a peer that answers with the line x.  The buffer is
    not empty and is no JSON text; the detail is the decoder's message and
    not No valid response. *)
Lemma non_json_reply_counterexample :
  established Plaintext (connection_of Plaintext (every (replying "x")) "host" 50001 2) /\
  received runtime (connection_of Plaintext (every (replying "x")) "host" 50001 2)
    = Return "x" /\
  json_loads runtime "x"
    = Raise (mk_exn JSONDecodeError "Expecting value: line 1 column 1 (char 0)") /\
  check_tcp_server runtime (every (replying "x")) "host" 50001 2
    = Return (false, "Expecting value: line 1 column 1 (char 0)") /\
  check_ssl_server runtime (every (replying "x")) "host" 50002 2
    = Return (false, "Expecting value: line 1 column 1 (char 0)") /\
  check_tcp_server runtime (every (replying "x")) "host" 50001 2
    <> Return (false, "No valid response").
Proof. repeat split; try reflexivity; discriminate. Qed.

Lemma probe_rejected_json_detail_witness :
  probe runtime Encrypted (every (replying "x")) "host" 50002 2
    = Return (false, "Expecting value: line 1 column 1 (char 0)") /\
  probe runtime Plaintext (every (replying "{}")) "host" 50001 2
    = Return (false, "No valid response").
Proof.
  split.
  - refine (proj1 (probe_rejected_json_detail runtime Encrypted (every (replying "x"))
                     "host" 50002 2 "x" _ _ _)
              (mk_exn JSONDecodeError "Expecting value: line 1 column 1 (char 0)") _ _).
    + repeat split; reflexivity.
    + reflexivity.
    + discriminate.
    + reflexivity.
    + reflexivity.
  - refine (proj2 (probe_rejected_json_detail runtime Plaintext (every (replying "{}"))
                     "host" 50001 2 "{}" _ _ _) [] _ _ _).
    + repeat split; reflexivity.
    + reflexivity.
    + discriminate.
    + reflexivity.
    + unfold has_key. simpl. apply not_elem_of_nil.
    + unfold has_key. simpl. apply not_elem_of_nil.
Defined.

(** C5 on three runs: the reply of a live server, the empty object, and a
    peer that closes without sending. *)
Lemma probe_judges_reply_witness :
  check_tcp_server runtime (every (replying reply_ok)) "host" 50001 2
    = Return (true, "OK") /\
  check_ssl_server runtime (every (replying "{}")) "host" 50002 2
    = Return (false, "No valid response") /\
  check_tcp_server runtime (every closing) "host" 50001 2
    = Return (false, "No valid response").
Proof.
  split; [|split].
  - refine (proj1 (probe_judges_reply runtime Plaintext (every (replying reply_ok))
              "host" 50001 2 _) reply_ok _ _ _ _ _).
    + repeat split; reflexivity.
    + reflexivity.
    + discriminate.
    + reflexivity.
    + left. unfold has_key. simpl. apply list_elem_of_In. simpl. auto.
  - refine (proj2 (proj2 (proj2 (probe_judges_reply runtime Encrypted
              (every (replying "{}")) "host" 50002 2 _))) "{}" [] _ _ _ _ _).
    + repeat split; reflexivity.
    + reflexivity.
    + discriminate.
    + reflexivity.
    + unfold has_key. simpl. apply not_elem_of_nil.
    + unfold has_key. simpl. apply not_elem_of_nil.
  - refine (proj1 (proj2 (proj2 (probe_judges_reply runtime Plaintext (every closing)
              "host" 50001 2 _))) _).
    + repeat split; reflexivity.
    + reflexivity.
Defined.

End ProbeExamples.

(** *** The endpoint parser *)

Section Parser.

Context (rt : Runtime).

Import UrlParse HealthCheck.

(** [check_server] is its decision followed by the call it decides on. *)
Lemma check_server_follow net url :
  check_server rt net url = (r <- route_of rt url;; follow rt net url r).
Proof.
  unfold check_server, route_of.
  destruct (urlparse rt url) as [parsed|e]; simpl; [|done].
  destruct (port rt parsed) as [[p|]|e]; simpl; [| |done].
  - destruct (hostname parsed) as [h|]; simpl; [|done].
    destruct (nonempty h); simpl; [|done].
    destruct (p =? 0)%Z; simpl; [done|].
    destruct (String.eqb (scheme parsed) "tcp"); simpl.
    { by destruct (check_tcp_server rt net h p default_timeout) as [[? ?]|?]. }
    destruct (String.eqb (scheme parsed) "ssl"); simpl; [|done].
    by destruct (check_ssl_server rt net h p default_timeout) as [[? ?]|?].
  - destruct (hostname parsed) as [h|]; simpl; [|done].
    by rewrite orb_true_r.
Qed.

(** The [port] property yields a port number or raises. *)
Lemma port_in_range parsed p :
  port rt parsed = Return (Some p) -> (0 <= p <= 65535)%Z.
Proof.
  unfold port. destruct (snd (_hostinfo parsed)) as [text|]; [|done].
  destruct (forallb_str is_ascii_digit text); simpl; [|done].
  destruct (int_of_digits text) as [n|e]; simpl; [|done].
  destruct (0 <=? n)%Z eqn:H0; simpl; [|done].
  destruct (n <=? 65535)%Z eqn:H1; simpl; [|done].
  intros [= <-]. lia.
Qed.

Lemma route_probe_bounds url host p :
  route_of rt url = Return (ProbeTcp host p) \/ route_of rt url = Return (ProbeSsl host p) ->
  host <> EmptyString /\ (1 <= p <= 65535)%Z.
Proof.
  unfold route_of.
  destruct (urlparse rt url) as [parsed|e]; simpl; [|by intros [?|?]].
  destruct (port rt parsed) as [[q|]|e] eqn:Hport; simpl; [| |by intros [?|?]].
  - destruct (hostname parsed) as [h|]; simpl; [|by intros [?|?]].
    destruct (nonempty h) eqn:Hh; simpl; [|by intros [?|?]].
    destruct (q =? 0)%Z eqn:Hq; simpl; [by intros [?|?]|].
    apply port_in_range in Hport. apply Z.eqb_neq in Hq.
    assert (h <> EmptyString) by (by destruct h).
    destruct (String.eqb (scheme parsed) "tcp"); [|destruct (String.eqb (scheme parsed) "ssl")];
      intros [[=]|[=]]; subst; split; (done || lia).
  - destruct (hostname parsed); by intros [?|?].
Qed.

(** Whenever [urlparse] and the [port] property return, [check_server]
    returns a result for its URL: Invalid URL format without a host or a
    port (a zero port counts as none), otherwise Unknown protocol for a
    scheme other than tcp and ssl. *)
Lemma check_server_returns_when_parsed net url parsed p :
  urlparse rt url = Return parsed ->
  port rt parsed = Return p ->
  exists success detail,
    check_server rt net url = Return (url, success, detail) /\
    (truthy_host (hostname parsed) = false \/ truthy_port p = false ->
     success = false /\ detail = "Invalid URL format") /\
    (truthy_host (hostname parsed) = true -> truthy_port p = true ->
     scheme parsed <> "tcp" -> scheme parsed <> "ssl" ->
     success = false /\ detail = "Unknown protocol: " +:+ scheme parsed).
Proof.
  intros Hparse Hport. unfold check_server. rewrite Hparse. simpl. rewrite Hport. simpl.
  destruct (truthy_host (hostname parsed)) eqn:Hh; simpl.
  2:{ eexists _, _. split; [done|]. split; [done|]. done. }
  destruct (truthy_port p) eqn:Hp; simpl.
  2:{ eexists _, _. split; [done|]. split; [done|]. done. }
  destruct (String.eqb_spec (scheme parsed) "tcp") as [Htcp|Htcp].
  { destruct (probe_total rt Plaintext net (default EmptyString (hostname parsed))
                (default 0%Z p) default_timeout) as [[s d] Hr].
    simpl in Hr. rewrite Hr. simpl. eexists _, _. split; [done|].
    split; [by intros [?|?]|]. by intros _ _ ?. }
  destruct (String.eqb_spec (scheme parsed) "ssl") as [Hssl|Hssl].
  { destruct (probe_total rt Encrypted net (default EmptyString (hostname parsed))
                (default 0%Z p) default_timeout) as [[s d] Hr].
    simpl in Hr. rewrite Hr. simpl. eexists _, _. split; [done|].
    split; [by intros [?|?]|]. by intros _ _ _ ?. }
  eexists _, _. split; [done|]. split; [by intros [?|?]|]. done.
Qed.

(** [check_server] raises exactly when [urlparse] or the [port] property
    does. *)
Lemma raises_only_from_urlparse net url e :
  check_server rt net url = Raise e <->
  urlparse rt url = Raise e \/
  exists parsed, urlparse rt url = Return parsed /\ port rt parsed = Raise e.
Proof.
  split.
  - unfold check_server.
    destruct (urlparse rt url) as [parsed|e'] eqn:Hparse; simpl; [|intros [= ->]; by left].
    destruct (port rt parsed) as [p|e'] eqn:Hport; simpl.
    + intros Hr. exfalso.
      destruct (check_server_returns_when_parsed net url parsed p Hparse Hport)
        as (success & detail & Hret & _).
      unfold check_server in Hret. rewrite Hparse in Hret. simpl in Hret.
      rewrite Hport in Hret. simpl in Hret. congruence.
    + intros [= ->]. right. by exists parsed.
  - unfold check_server. intros [Hparse|(parsed & Hparse & Hport)].
    + by rewrite Hparse.
    + rewrite Hparse. simpl. by rewrite Hport.
Qed.

(** C4, on the inputs where it fails.  [check_server] has no handler of its
    own: for a port above 65535, a port that is no number, or an unmatched
    bracket, the [ValueError] of [urllib.parse] leaves the function. *)
Theorem check_server_raises net :
  check_server rt net "tcp://host:99999"
    = Raise (mk_exn ValueError "Port out of range 0-65535") /\
  check_server rt net "tcp://host:abc"
    = Raise (mk_exn ValueError
               ("Port could not be cast to integer value as " +:+ repr rt "abc")) /\
  check_server rt net "tcp://[::1:50001"
    = Raise (mk_exn ValueError "Invalid IPv6 URL").
Proof. repeat split; reflexivity. Qed.

(** C6.  On the four examples: the first goes to the plain probe with host
    host and port 50001, the second to the encrypted probe with port 50002,
    the third fails with Unknown protocol: ftp, the fourth with Invalid URL
    format. *)
Theorem check_server_examples net :
  (route_of rt "tcp://host:50001" = Return (ProbeTcp "host" 50001) /\
   check_server rt net "tcp://host:50001"
     = (checked <- check_tcp_server rt net "host" 50001 default_timeout;;
        Return ("tcp://host:50001", fst checked, snd checked))) /\
  (route_of rt "ssl://host:50002" = Return (ProbeSsl "host" 50002) /\
   check_server rt net "ssl://host:50002"
     = (checked <- check_ssl_server rt net "host" 50002 default_timeout;;
        Return ("ssl://host:50002", fst checked, snd checked))) /\
  check_server rt net "ftp://host:21"
    = Return ("ftp://host:21", false, "Unknown protocol: ftp") /\
  check_server rt net "tcp://"
    = Return ("tcp://", false, "Invalid URL format").
Proof.
  rewrite !check_server_follow. repeat split; reflexivity.
Qed.

(** C9.  A URL whose port is 0 is answered with Invalid URL format, like a
    URL without a port; so a probe is only called with a host that is not
    empty and a port between 1 and 65535. *)
Theorem zero_port_is_invalid net url :
  (forall parsed,
     urlparse rt url = Return parsed ->
     port rt parsed = Return (Some 0%Z) ->
     check_server rt net url = Return (url, false, "Invalid URL format")) /\
  (forall parsed,
     urlparse rt url = Return parsed ->
     port rt parsed = Return None ->
     check_server rt net url = Return (url, false, "Invalid URL format")) /\
  (forall host p,
     route_of rt url = Return (ProbeTcp host p) \/
     route_of rt url = Return (ProbeSsl host p) ->
     host <> EmptyString /\ (1 <= p <= 65535)%Z) /\
  check_server rt net "tcp://host:0" = Return ("tcp://host:0", false, "Invalid URL format").
Proof.
  split; [|split; [|split]].
  - intros parsed Hparse Hport. unfold check_server. rewrite Hparse. simpl.
    rewrite Hport. simpl. by rewrite orb_true_r.
  - intros parsed Hparse Hport. unfold check_server. rewrite Hparse. simpl.
    rewrite Hport. simpl. by rewrite orb_true_r.
  - intros host p. apply route_probe_bounds.
  - reflexivity.
Qed.

End Parser.

(** *** Deduplication and order of dispatch *)

Section Dispatch.

Import HealthCheck.


Lemma str_lt_alt a b : str_lt a b <-> OrdersEx.String_as_OT.lt a b.
Proof.
  unfold str_lt, String.ltb, OrdersEx.String_as_OT.lt.
  change (String.compare a b) with (OrdersEx.String_as_OT.compare a b).
  by destruct (OrdersEx.String_as_OT.compare a b).
Qed.


Lemma str_lt_irrefl : Irreflexive str_lt.
Proof.
  intros a. unfold complement. rewrite str_lt_alt.
  apply (irreflexivity OrdersEx.String_as_OT.lt).
Qed.




(** The order is the lexicographic one on code points. *)
Lemma str_lt_lexicographic a s b t :
  str_lt (String a s) (String b t) <->
  (ord a < ord b)%N \/ (a = b /\ str_lt s t).
Proof.
  unfold str_lt, String.ltb. simpl. unfold Ascii.compare, ord.
  destruct (N.compare_spec (N_of_ascii a) (N_of_ascii b)) as [Heq|Hlt|Hgt].
  - assert (a = b) as ->.
    { by rewrite <- (ascii_N_embedding a), <- (ascii_N_embedding b), Heq. }
    split; [by right|]. intros [?|[_ ?]]; [lia|done].
  - split; [by left|done].
  - split; [done|]. intros [?|[-> _]]; lia.
Qed.

Lemma str_lt_empty_l a s : str_lt EmptyString (String a s).
Proof. done. Qed.

Lemma str_lt_empty_r s : ~ str_lt s EmptyString.
Proof. by destruct s. Qed.

Lemma all_servers_Permutation rust ts :
  all_servers rust ts ≡ₚ elements (list_to_set (rust ++ ts) : gset string).
Proof. apply merge_sort_Permutation. Qed.

Lemma elem_of_all_servers rust ts url :
  url ∈ all_servers rust ts <-> url ∈ rust ++ ts.
Proof.
  by rewrite all_servers_Permutation, elem_of_elements, elem_of_list_to_set.
Qed.

Lemma NoDup_all_servers rust ts : NoDup (all_servers rust ts).
Proof. rewrite all_servers_Permutation. apply NoDup_elements. Qed.






End Dispatch.

(** *** Aggregation *)

Section Aggregation.

Context (rt : Runtime).

Import HealthCheck.

(** The result of a call names the URL the call was made for. *)
Lemma check_server_url net url u success message :
  check_server rt net url = Return (u, success, message) -> u = url.
Proof.
  rewrite check_server_follow.
  destruct (route_of rt url) as [[detail|host port|host port]|e]; simpl; [| | |done].
  - by intros [= <- _ _].
  - destruct (check_tcp_server rt net host port default_timeout); simpl; [|done].
    by intros [= <- _ _].
  - destruct (check_ssl_server rt net host port default_timeout); simpl; [|done].
    by intros [= <- _ _].
Qed.

(** While the futures return, the loop appends each result to one list. *)
Lemma collect_returns (fs : list future) working broken :
  Forall (fun fut : future => exists r, snd fut = Return r) fs ->
  collect fs working broken
  = Return (working ++ successes (results fs), broken ++ failures (results fs)).
Proof.
  intros Hall. revert working broken.
  induction Hall as [|[url res] fs [r Hr] _ IH]; intros working broken; simpl.
  - by rewrite !app_nil_r.
  - simpl in Hr. subst res. simpl. destruct r as [[u success] message].
    destruct success; simpl; rewrite IH; by rewrite <- app_assoc.
Qed.

(** The first future whose call raised ends the loop with that exception. *)
Lemma collect_raises (fs : list future) working broken :
  Exists (fun fut : future => exists e, snd fut = Raise e) fs ->
  exists e, collect fs working broken = Raise e.
Proof.
  intros Hex. revert working broken.
  induction Hex as [[url res] fs [e He]|[url res] fs _ IH]; intros working broken; simpl.
  - simpl in He. subst res. by exists e.
  - destruct res as [[[u success] message]|e]; simpl; [|by exists e].
    destruct success; apply IH.
Qed.

Lemma successes_failures_Permutation rs :
  successes rs ++ map fst (failures rs) ≡ₚ map (fun r : string * bool * string => r.1.1) rs.
Proof.
  induction rs as [|[[u success] message] rs IH]; [done|].
  unfold successes, failures in *. simpl. destruct success; simpl.
  - by rewrite IH.
  - by rewrite <- Permutation_middle, IH.
Qed.

Lemma successes_failures_length rs :
  List.length (successes rs) + List.length (failures rs) = List.length rs.
Proof.
  induction rs as [|[[u success] message] rs IH]; [done|].
  unfold successes, failures in *. csimpl. destruct success; csimpl; lia.
Qed.

Lemma results_Permutation (fs1 fs2 : list future) :
  fs1 ≡ₚ fs2 -> results fs1 ≡ₚ results fs2.
Proof. intros H. unfold results. by rewrite H. Qed.

Lemma successes_Permutation rs1 rs2 : rs1 ≡ₚ rs2 -> successes rs1 ≡ₚ successes rs2.
Proof. intros H. unfold successes. by rewrite H. Qed.

Lemma failures_Permutation rs1 rs2 : rs1 ≡ₚ rs2 -> failures rs1 ≡ₚ failures rs2.
Proof. intros H. unfold failures. by rewrite H. Qed.

Lemma submit_all_return world urls :
  all_return rt world urls ->
  Forall (fun fut : future => exists r, snd fut = Return r) (submit_all rt world urls).
Proof.
  intros Hall. apply Forall_forall. intros [url res] Hin.
  apply list_elem_of_In, in_map_iff in Hin as (u & [= <- <-] & Hu).
  by apply Hall.
Qed.

Lemma submit_all_results world urls :
  all_return rt world urls ->
  map (fun r : string * bool * string => r.1.1) (results (submit_all rt world urls)) = urls.
Proof.
  induction urls as [|url urls IH]; intros Hall; [done|].
  destruct (Hall url) as [[[u success] message] Hr]; [by left|].
  unfold results, submit_all in *. simpl. rewrite Hr. simpl.
  apply check_server_url in Hr as ->. f_equal.
  apply IH. intros u Hu. apply Hall. by right.
Qed.

Lemma submit_all_raise world urls url e :
  url ∈ urls -> check_server rt (world url) url = Raise e ->
  Exists (fun fut : future => exists e, snd fut = Raise e) (submit_all rt world urls).
Proof.
  intros Hin Hr. apply Exists_exists. exists (url, check_server rt (world url) url).
  split; [|by exists e].
  apply list_elem_of_In, in_map_iff. exists url. split; [done|]. by apply list_elem_of_In.
Qed.

Lemma Forall_returns_Permutation (fs1 fs2 : list future) :
  fs1 ≡ₚ fs2 ->
  Forall (fun fut : future => exists r, snd fut = Return r) fs2 ->
  Forall (fun fut : future => exists r, snd fut = Return r) fs1.
Proof. intros H. by rewrite H. Qed.

Lemma Exists_raises_Permutation (fs1 fs2 : list future) :
  fs1 ≡ₚ fs2 ->
  Exists (fun fut : future => exists e, snd fut = Raise e) fs2 ->
  Exists (fun fut : future => exists e, snd fut = Raise e) fs1.
Proof.
  intros H. rewrite !Exists_exists. intros (fut & Hin & He). exists fut.
  split; [|done]. by rewrite H.
Qed.

(** A run in which every call returns reaches the summary, whatever the
    order of completion, with the two lists computed from the results. *)
Lemma main_returns world as_completed rust ts :
  (forall fs, as_completed fs ≡ₚ fs) ->
  all_return rt world (all_servers rust ts) ->
  exists s,
    main rt world as_completed rust ts = Return s /\
    servers s = all_servers rust ts /\
    working s
      = successes (results (as_completed (submit_all rt world (all_servers rust ts)))) /\
    broken s
      = failures (results (as_completed (submit_all rt world (all_servers rust ts)))) /\
    exit_code s = (if Nat.eqb (List.length (broken s)) 0 then 0 else 1)%Z /\
    new_server_working s
      = (if bool_decide (new_server ∈ all_servers rust ts)
         then Some (bool_decide (new_server ∈ working s)) else None).
Proof.
  intros Hperm Hall. unfold main.
  rewrite collect_returns.
  - simpl. eexists. split; [done|]. by repeat split.
  - eapply Forall_returns_Permutation; [apply Hperm|]. by apply submit_all_return.
Qed.

(** A run in which a call raises ends with an exception and no summary. *)
Lemma main_raises world as_completed rust ts url e :
  (forall fs, as_completed fs ≡ₚ fs) ->
  url ∈ rust ++ ts ->
  check_server rt (world url) url = Raise e ->
  exists e', main rt world as_completed rust ts = Raise e'.
Proof.
  intros Hperm Hin Hr. unfold main.
  destruct (collect_raises (as_completed (submit_all rt world (all_servers rust ts)))
              [] []) as [e' He'].
  - eapply Exists_raises_Permutation; [apply Hperm|].
    apply (submit_all_raise world _ url e); [|done]. by apply elem_of_all_servers.
  - exists e'. by rewrite He'.
Qed.

(** The summary of a run in which every call returns: each URL of the input
    is in exactly one of the two lists, once. *)
Lemma main_partition world as_completed rust ts :
  (forall fs, as_completed fs ≡ₚ fs) ->
  all_return rt world (all_servers rust ts) ->
  exists s,
    main rt world as_completed rust ts = Return s /\
    working s ++ broken_urls s ≡ₚ all_servers rust ts /\
    NoDup (working s ++ broken_urls s) /\
    (forall url, url ∈ rust ++ ts <-> url ∈ working s \/ url ∈ broken_urls s) /\
    (forall url, url ∈ working s -> url ∉ broken_urls s) /\
    List.length (working s) + List.length (broken s)
      = List.length (all_servers rust ts).
Proof.
  intros Hperm Hall.
  destruct (main_returns world as_completed rust ts Hperm Hall)
    as (s & Hmain & _ & Hw & Hb & _).
  assert (working s ++ broken_urls s ≡ₚ all_servers rust ts) as Hpart.
  { unfold broken_urls. rewrite Hw, Hb, successes_failures_Permutation.
    rewrite (results_Permutation _ _ (Hperm _)).
    by rewrite submit_all_results. }
  assert (NoDup (working s ++ broken_urls s)) as Hnodup.
  { rewrite Hpart. apply NoDup_all_servers. }
  exists s. split; [done|]. split; [done|]. split; [done|]. split; [|split].
  - intros url. by rewrite <- elem_of_all_servers, <- Hpart, elem_of_app.
  - intros url. apply NoDup_app in Hnodup as (_ & Hdisj & _). apply Hdisj.
  - rewrite Hw, Hb, successes_failures_length.
    rewrite (Permutation_length (results_Permutation _ _ (Hperm _))).
    rewrite <- (length_map (fun r : string * bool * string => r.1.1)).
    by rewrite submit_all_results.
Qed.

(** C8.  With the outcome of every call fixed, two runs that differ only in
    the order in which the futures complete end alike.  When every call
    returns, both reach the summary, with the same servers, the same working
    URLs and the same broken pairs up to their order in the lists, the same
    counts, the total being the sum of the two counts, and the same exit
    code.  When a call raises, neither run reaches the summary. *)
Theorem summary_independent_of_completion_order world order1 order2 rust ts :
  (forall fs, order1 fs ≡ₚ fs) ->
  (forall fs, order2 fs ≡ₚ fs) ->
  (all_return rt world (all_servers rust ts) ->
   exists s1 s2,
     main rt world order1 rust ts = Return s1 /\
     main rt world order2 rust ts = Return s2 /\
     servers s1 = servers s2 /\
     working s1 ≡ₚ working s2 /\
     broken s1 ≡ₚ broken s2 /\
     List.length (working s1) = List.length (working s2) /\
     List.length (broken s1) = List.length (broken s2) /\
     List.length (servers s1) = List.length (working s1) + List.length (broken s1) /\
     exit_code s1 = exit_code s2 /\
     new_server_working s1 = new_server_working s2) /\
  (forall url e,
     url ∈ rust ++ ts -> check_server rt (world url) url = Raise e ->
     (exists e1, main rt world order1 rust ts = Raise e1) /\
     (exists e2, main rt world order2 rust ts = Raise e2)).
Proof.
  intros Hperm1 Hperm2. split.
  - intros Hall.
    destruct (main_returns world order1 rust ts Hperm1 Hall)
      as (s1 & Hmain1 & Hs1 & Hw1 & Hb1 & Hx1 & Hn1).
    destruct (main_returns world order2 rust ts Hperm2 Hall)
      as (s2 & Hmain2 & Hs2 & Hw2 & Hb2 & Hx2 & Hn2).
    assert (working s1 ≡ₚ working s2) as Hw.
    { rewrite Hw1, Hw2. apply successes_Permutation, results_Permutation.
      by rewrite Hperm1, Hperm2. }
    assert (broken s1 ≡ₚ broken s2) as Hb.
    { rewrite Hb1, Hb2. apply failures_Permutation, results_Permutation.
      by rewrite Hperm1, Hperm2. }
    exists s1, s2. split; [done|]. split; [done|].
    split; [by rewrite Hs1, Hs2|]. split; [done|]. split; [done|].
    split; [by rewrite Hw|]. split; [by rewrite Hb|]. split; [|split].
    + destruct (main_partition world order1 rust ts Hperm1 Hall)
        as (s & Hmain & _ & _ & _ & _ & Hlen).
      rewrite Hmain1 in Hmain. injection Hmain as <-. by rewrite Hs1.
    + by rewrite Hx1, Hx2, Hb.
    + rewrite Hn1, Hn2. destruct (bool_decide (new_server ∈ all_servers rust ts)); [|done].
      f_equal. apply bool_decide_ext. by rewrite Hw.
  - intros url e Hin Hr. split.
    + by apply (main_raises world order1 rust ts url e).
    + by apply (main_raises world order2 rust ts url e).
Qed.

(** C1, on an input where it fails.  For the one URL tcp://host:99999 the
    call of [check_server] raises, [future.result()] raises in the loop, and
    the run ends with the exception: no summary is reached and the URL is in
    neither list. *)
Theorem main_aborts_on_bad_port world as_completed :
  (forall fs, as_completed fs ≡ₚ fs) ->
  main rt world as_completed ["tcp://host:99999"] []
  = Raise (mk_exn ValueError "Port out of range 0-65535").
Proof.
  intros Hperm. unfold main.
  assert (all_servers ["tcp://host:99999"] [] = ["tcp://host:99999"]) as ->
    by (vm_compute; reflexivity).
  unfold submit_all. simpl map.
  pose proof (Hperm [("tcp://host:99999",
                      check_server rt (world "tcp://host:99999") "tcp://host:99999")])
    as Hone.
  apply Permutation_singleton_r in Hone. rewrite Hone. reflexivity.
Qed.

End Aggregation.

Section AggregationExamples.

Import HealthCheck Sample.

Lemma sample_all_return : all_return runtime world (all_servers urls []).
Proof.
  intros url Hin.
  assert (all_servers urls []
          = ["ftp://c.example:21"; "ssl://a.example:50002"; "tcp://b.example:50001"])
    as Hall by (vm_compute; reflexivity).
  rewrite Hall in Hin. simpl in Hin.
  destruct Hin as [<-|[<-|[<-|[]]]]; eexists; vm_compute; reflexivity.
Qed.

(** C8 on a run of three servers, completed in the order of submission and
    in the reverse order. *)
Lemma summary_independent_of_completion_order_witness :
  exists s1 s2,
    main runtime world (fun fs => fs) urls [] = Return s1 /\
    main runtime world (@rev future) urls [] = Return s2 /\
    servers s1 = servers s2 /\
    working s1 ≡ₚ working s2 /\
    broken s1 ≡ₚ broken s2 /\
    List.length (working s1) = List.length (working s2) /\
    List.length (broken s1) = List.length (broken s2) /\
    List.length (servers s1) = List.length (working s1) + List.length (broken s1) /\
    exit_code s1 = exit_code s2 /\
    new_server_working s1 = new_server_working s2.
Proof.
  apply (proj1 (summary_independent_of_completion_order runtime world
                  (fun fs => fs) (@rev future) urls []
                  (fun fs => reflexivity fs)
                  (fun fs => Permutation_sym (Permutation_rev fs)))).
  apply sample_all_return.
Defined.

Lemma main_aborts_on_bad_port_witness :
  main runtime world (fun fs => fs) ["tcp://host:99999"] []
  = Raise (mk_exn ValueError "Port out of range 0-65535").
Proof.
  apply (main_aborts_on_bad_port runtime world (fun fs => fs)).
  intros fs. reflexivity.
Defined.

End AggregationExamples.

(** *** Reading the server lists *)

Section Strings.

Import Files.

Lemma append_cons x (a b : string) : String x a +:+ b = String x (a +:+ b).
Proof. done. Qed.

Lemma append_nil_l (a : string) : EmptyString +:+ a = a.
Proof. done. Qed.

Lemma append_assoc (a b c : string) : (a +:+ b) +:+ c = a +:+ (b +:+ c).
Proof. induction a as [|x a IH]; [done|]. by rewrite !append_cons, IH. Qed.

Lemma append_nil_r (a : string) : a +:+ EmptyString = a.
Proof. induction a as [|x a IH]; [done|]. by rewrite append_cons, IH. Qed.

Lemma length_append (a b : string) :
  String.length (a +:+ b) = String.length a + String.length b.
Proof. induction a as [|x a IH]; [done|]. rewrite append_cons. simpl. by rewrite IH. Qed.

Lemma contains_append c (a b : string) :
  contains c (a +:+ b) = contains c a || contains c b.
Proof.
  induction a as [|x a IH]; [done|]. rewrite append_cons. simpl.
  by rewrite IH, orb_assoc.
Qed.

Lemma nonempty_iff (s : string) : nonempty s = true <-> s <> EmptyString.
Proof. by destruct s. Qed.

Lemma after_prefix_append (p s : string) : after_prefix p (p +:+ s) = Some s.
Proof.
  induction p as [|a p IH]; [by destruct s|].
  rewrite append_cons. simpl. by rewrite Ascii.eqb_refl.
Qed.

Lemma after_prefix_Some (p s r : string) : after_prefix p s = Some r -> s = p +:+ r.
Proof.
  revert s. induction p as [|a p IH]; intros s; simpl.
  - destruct s; by intros [= <-].
  - destruct s as [|b s]; [done|].
    destruct (Ascii.eqb_spec a b) as [<-|]; [|done].
    intros H. by rewrite (IH _ H).
Qed.

Lemma after_prefix_may_start (p suf rest r : string) :
  after_prefix p (suf +:+ rest) = Some r -> may_start p suf = true.
Proof.
  revert suf. induction p as [|a p IH]; intros suf; [by destruct suf|].
  destruct suf as [|b suf]; [done|]. rewrite append_cons. simpl.
  destruct (Ascii.eqb a b); [apply IH|done].
Qed.

Lemma partition_append c (u rest : string) :
  contains c u = false -> partition c (u +:+ String c rest) = (u, true, rest).
Proof.
  induction u as [|a u IH].
  - intros _. rewrite append_nil_l. simpl. by rewrite Ascii.eqb_refl.
  - rewrite append_cons. simpl. intros [Ha Hu]%orb_false_elim. by rewrite Ha, IH.
Qed.

Lemma partition_found c (s h t : string) :
  partition c s = (h, true, t) -> contains c h = false /\ s = h +:+ String c t.
Proof.
  revert h. induction s as [|a s IH]; intros h; simpl; [done|].
  destruct (Ascii.eqb_spec a c) as [->|Hne].
  - by intros [= <- <-].
  - destruct (partition c s) as [[h' f'] t'] eqn:Hp. intros [= <- -> <-].
    destruct (IH h' eq_refl) as [Hc ->]. split; [|done].
    simpl. rewrite Hc. by destruct (Ascii.eqb_spec a c).
Qed.

End Strings.

Section Findall.

Import Files.

Context (match_at : string -> option (string * string)) (prefixes : list string).

(** A match is not empty, and begins with one of the prefixes. *)
Hypothesis match_shortens :
  forall s group after, match_at s = Some (group, after) ->
    String.length after < String.length s.
Hypothesis match_begins :
  forall s group after, match_at s = Some (group, after) ->
    exists p r, p ∈ prefixes /\ after_prefix p s = Some r.

Lemma findall_fuel fuel1 fuel2 s :
  String.length s < fuel1 -> String.length s < fuel2 ->
  findall match_at fuel1 s = findall match_at fuel2 s.
Proof.
  revert fuel2 s. induction fuel1 as [|fuel1 IH]; intros fuel2 s H1 H2; [lia|].
  destruct fuel2 as [|fuel2]; [lia|]. simpl.
  destruct (match_at s) as [[group after]|] eqn:Hm.
  - apply match_shortens in Hm. f_equal. apply IH; lia.
  - destruct s as [|c s]; [done|]. simpl in *. apply IH; lia.
Qed.

Lemma findall_S fuel s :
  findall match_at (S fuel) s
  = match match_at s with
    | Some (group, after) => group :: findall match_at fuel after
    | None =>
        match s with
        | EmptyString => []
        | String _ s' => findall match_at fuel s'
        end
    end.
Proof. done. Qed.

Lemma findall_match fuel s group after :
  match_at s = Some (group, after) -> String.length s < fuel ->
  findall match_at fuel s = group :: findall match_at (S (String.length after)) after.
Proof.
  intros Hm Hfuel. destruct fuel as [|fuel]; [lia|].
  rewrite (findall_S fuel s), Hm. f_equal.
  apply match_shortens in Hm. apply findall_fuel; lia.
Qed.

Lemma calm_no_match c (s rest : string) :
  calm prefixes (String c s) = true -> match_at (String c s +:+ rest) = None.
Proof.
  intros Hcalm. destruct (match_at (String c s +:+ rest)) as [[group after]|] eqn:Hm; [|done].
  destruct (match_begins _ _ _ Hm) as (p & r & Hp & Hr).
  apply after_prefix_may_start in Hr.
  simpl in Hcalm. apply andb_true_iff in Hcalm as [Hall _].
  rewrite forallb_forall in Hall. apply list_elem_of_In, Hall in Hp.
  by rewrite Hr in Hp.
Qed.

Lemma findall_calm fuel (before rest : string) :
  calm prefixes before = true ->
  String.length (before +:+ rest) < fuel ->
  findall match_at fuel (before +:+ rest)
  = findall match_at (S (String.length rest)) rest.
Proof.
  revert fuel. induction before as [|c before IH]; intros fuel Hcalm Hfuel.
  - rewrite append_nil_l in *. apply findall_fuel; lia.
  - destruct fuel as [|fuel]; [lia|].
    rewrite (findall_S fuel (String c before +:+ rest)).
    rewrite (calm_no_match _ _ _ Hcalm), append_cons.
    rewrite append_cons in Hfuel. simpl in Hcalm, Hfuel.
    apply andb_true_iff in Hcalm as [_ Hcalm].
    apply IH; [done|lia].
Qed.

Lemma findall_occurs (written : string -> string) fuel s group :
  (forall s group after, match_at s = Some (group, after) -> s = written group +:+ after) ->
  group ∈ findall match_at fuel s ->
  exists before after, s = before +:+ written group +:+ after.
Proof.
  intros Hwritten. revert s. induction fuel as [|fuel IH]; intros s; simpl.
  { by intros ?%elem_of_nil. }
  destruct (match_at s) as [[g after]|] eqn:Hm.
  - intros [->|Hin]%elem_of_cons.
    + exists EmptyString, after. rewrite append_nil_l. by apply Hwritten.
    + destruct (IH _ Hin) as (b & a & ->).
      exists (written g +:+ b), a. rewrite (Hwritten _ _ _ Hm). by rewrite append_assoc.
  - destruct s as [|c s]; [by intros ?%elem_of_nil|].
    intros Hin. destruct (IH _ Hin) as (b & a & ->). by exists (String c b), a.
Qed.

Lemma findall_Forall (P : string -> Prop) fuel s :
  (forall s group after, match_at s = Some (group, after) -> P group) ->
  Forall P (findall match_at fuel s).
Proof.
  intros HP. revert s. induction fuel as [|fuel IH]; intros s; simpl; [constructor|].
  destruct (match_at s) as [[g after]|] eqn:Hm.
  - constructor; [by eapply HP|apply IH].
  - destruct s; [constructor|apply IH].
Qed.

Lemma findall_source_text (written : string -> string) (accepted : string -> Prop)
    items last fuel :
  (forall url after, accepted url -> match_at (written url +:+ after) = Some (url, after)) ->
  match_at EmptyString = None ->
  Forall (fun item : string * string =>
            calm prefixes item.1 = true /\ accepted item.2) items ->
  calm prefixes last = true ->
  String.length (source_text written items last) < fuel ->
  findall match_at fuel (source_text written items last) = map snd items.
Proof.
  intros Hwritten Hempty Hitems Hlast. revert fuel.
  induction Hitems as [|[before url] items [Hcalm Hurl] _ IH]; intros fuel Hfuel; simpl in *.
  - rewrite <- (append_nil_r last).
    rewrite findall_calm; [|done|by rewrite append_nil_r].
    simpl. by rewrite Hempty.
  - rewrite findall_calm; [|done|done].
    rewrite (findall_match _ _ url (source_text written items last)); [|by apply Hwritten|lia].
    f_equal. apply IH. lia.
Qed.

End Findall.

Section Extraction.

Import Files.

Local Ltac flatten_append :=
  repeat (rewrite append_assoc || rewrite append_cons || rewrite append_nil_l).

Lemma match_rust_Some s group after :
  match_rust s = Some (group, after) ->
  group <> EmptyString /\ contains QUOTE group = false /\ s = rust_call group +:+ after.
Proof.
  unfold match_rust.
  destruct (after_prefix _ s) as [rest|] eqn:Hprefix; [|done].
  destruct (partition QUOTE rest) as [[g closed] a] eqn:Hpart.
  destruct (nonempty g) eqn:Hg; [|done]. destruct closed; [|done]. simpl.
  destruct a as [|c a]; [done|].
  destruct (Ascii.eqb_spec c ")") as [->|]; [|done]. intros [= <- <-].
  apply partition_found in Hpart as [Hquote ->].
  apply after_prefix_Some in Hprefix as ->.
  split; [by apply nonempty_iff|]. split; [done|].
  unfold rust_call. by flatten_append.
Qed.

Lemma match_rust_call url after :
  url <> EmptyString -> contains QUOTE url = false ->
  match_rust (rust_call url +:+ after) = Some (url, after).
Proof.
  intros Hne Hquote.
  replace (rust_call url +:+ after)
    with (("Url::parse(" +:+ String QUOTE EmptyString)
          +:+ (url +:+ String QUOTE (String ")" after)))
    by (unfold rust_call; by flatten_append).
  unfold match_rust. rewrite after_prefix_append, (partition_append _ _ _ Hquote).
  apply nonempty_iff in Hne. by rewrite Hne.
Qed.

Lemma match_rust_shortens s group after :
  match_rust s = Some (group, after) -> String.length after < String.length s.
Proof.
  intros (_ & _ & ->)%match_rust_Some. rewrite length_append. unfold rust_call.
  rewrite length_append. simpl. lia.
Qed.

Lemma match_rust_begins s group after :
  match_rust s = Some (group, after) ->
  exists p r, p ∈ rust_prefixes /\ after_prefix p s = Some r.
Proof.
  unfold match_rust. destruct (after_prefix _ s) as [rest|] eqn:Hprefix; [|done].
  intros _. eexists _, rest. split; [|exact Hprefix]. apply list_elem_of_here.
Qed.

Lemma match_scheme_Some scheme_part rest group after :
  match_scheme scheme_part rest = Some (group, after) ->
  exists run, group = scheme_part +:+ run /\ run <> EmptyString /\
              contains QUOTE run = false /\
              rest = scheme_part +:+ run +:+ String QUOTE after.
Proof.
  unfold match_scheme.
  destruct (after_prefix scheme_part rest) as [body|] eqn:Hprefix; [|done].
  destruct (partition QUOTE body) as [[run closed] a] eqn:Hpart.
  destruct (nonempty run) eqn:Hrun; [|done]. destruct closed; [|done]. simpl.
  intros [= <- <-]. exists run.
  apply partition_found in Hpart as [Hquote ->].
  apply after_prefix_Some in Hprefix as ->.
  split; [done|]. split; [by apply nonempty_iff|]. done.
Qed.

Lemma match_typescript_Some s group after :
  match_typescript s = Some (group, after) ->
  electrum_url group /\ s = quoted group +:+ after.
Proof.
  unfold match_typescript. destruct s as [|q rest]; [done|].
  destruct (Ascii.eqb_spec q QUOTE) as [->|]; [|done].
  destruct (match_scheme "tcp://" rest) as [m|] eqn:Htcp.
  - intros [= ->]. apply match_scheme_Some in Htcp as (run & -> & Hne & Hquote & ->).
    split; [exists run; by split; [left|]|]. unfold quoted. by flatten_append.
  - intros (run & -> & Hne & Hquote & ->)%match_scheme_Some.
    split; [exists run; by split; [right|]|]. unfold quoted. by flatten_append.
Qed.

Lemma match_typescript_call url after :
  electrum_url url -> match_typescript (quoted url +:+ after) = Some (url, after).
Proof.
  intros (rest & Hurl & Hne & Hquote). apply nonempty_iff in Hne.
  destruct Hurl as [-> | ->].
  - replace (quoted ("tcp://" +:+ rest) +:+ after)
      with (String QUOTE ("tcp://" +:+ (rest +:+ String QUOTE after)))
      by (unfold quoted; by flatten_append).
    unfold match_typescript, match_scheme. rewrite Ascii.eqb_refl.
    rewrite after_prefix_append, (partition_append _ _ _ Hquote). by rewrite Hne.
  - replace (quoted ("ssl://" +:+ rest) +:+ after)
      with (String QUOTE ("ssl://" +:+ (rest +:+ String QUOTE after)))
      by (unfold quoted; by flatten_append).
    unfold match_typescript. rewrite Ascii.eqb_refl.
    assert (match_scheme "tcp://" ("ssl://" +:+ rest +:+ String QUOTE after) = None) as ->.
    { unfold match_scheme. by rewrite !append_cons. }
    unfold match_scheme.
    rewrite after_prefix_append, (partition_append _ _ _ Hquote). by rewrite Hne.
Qed.

Lemma match_typescript_shortens s group after :
  match_typescript s = Some (group, after) -> String.length after < String.length s.
Proof.
  intros [_ ->]%match_typescript_Some. rewrite length_append. unfold quoted.
  rewrite append_cons. simpl. lia.
Qed.

Lemma match_typescript_begins s group after :
  match_typescript s = Some (group, after) ->
  exists p r, p ∈ typescript_prefixes /\ after_prefix p s = Some r.
Proof.
  unfold match_typescript. destruct s as [|q rest]; [done|].
  destruct (Ascii.eqb_spec q QUOTE) as [->|]; [|done].
  unfold match_scheme.
  destruct (after_prefix "tcp://" rest) as [body|] eqn:Htcp.
  - intros _. exists (String QUOTE "tcp://"), body. split; [apply list_elem_of_here|].
    change (after_prefix (String QUOTE "tcp://") (String QUOTE rest))
      with (if Ascii.eqb QUOTE QUOTE then after_prefix "tcp://" rest else None).
    by rewrite Ascii.eqb_refl.
  - destruct (after_prefix "ssl://" rest) as [body|] eqn:Hssl; [|done].
    intros _. exists (String QUOTE "ssl://"), body.
    split; [apply list_elem_of_further, list_elem_of_here|].
    change (after_prefix (String QUOTE "ssl://") (String QUOTE rest))
      with (if Ascii.eqb QUOTE QUOTE then after_prefix "ssl://" rest else None).
    by rewrite Ascii.eqb_refl.
Qed.

(** X1.  Every URL that [extract_servers_from_rust] returns is written in
    the text as the quoted argument of a call of Url::parse; it is not empty
    and holds no quote. *)
Theorem extract_rust_sound content url :
  url ∈ extract_servers_from_rust content ->
  url <> EmptyString /\ contains QUOTE url = false /\
  exists before after, content = before +:+ rust_call url +:+ after.
Proof.
  intros Hin. split; [|split].
  - pose proof (findall_Forall match_rust (fun g => g <> EmptyString)
                  (S (String.length content)) content) as Hall.
    rewrite Forall_forall in Hall. apply Hall; [|done].
    by intros s g a (? & _)%match_rust_Some.
  - pose proof (findall_Forall match_rust (fun g => contains QUOTE g = false)
                  (S (String.length content)) content) as Hall.
    rewrite Forall_forall in Hall. apply Hall; [|done].
    by intros s g a (_ & ? & _)%match_rust_Some.
  - apply (findall_occurs match_rust rust_call (S (String.length content))); [|done].
    by intros s g a (_ & _ & ?)%match_rust_Some.
Qed.

(** X2.  From a text made of calls of Url::parse on quoted URLs, with other
    text around them in which no such call begins, the function returns
    exactly the URLs of the calls, in the order of the text. *)
Theorem extract_rust_complete items last :
  Forall (fun item : string * string =>
            calm rust_prefixes item.1 = true /\
            (item.2 <> EmptyString /\ contains QUOTE item.2 = false)) items ->
  calm rust_prefixes last = true ->
  extract_servers_from_rust (rust_text items last) = map snd items.
Proof.
  intros Hitems Hlast. unfold extract_servers_from_rust, rust_text.
  apply (findall_source_text match_rust rust_prefixes match_rust_shortens
           match_rust_begins rust_call
           (fun url => url <> EmptyString /\ contains QUOTE url = false));
    [|done|done|done|lia].
  intros url after [Hne Hquote]. by apply match_rust_call.
Qed.

(** X3.  Every URL that [extract_servers_from_typescript] returns is written
    in the text between quotes; it begins with tcp:// or ssl://, goes on
    with at least one character and holds no quote. *)
Theorem extract_typescript_sound content url :
  url ∈ extract_servers_from_typescript content ->
  electrum_url url /\
  exists before after, content = before +:+ quoted url +:+ after.
Proof.
  intros Hin. split.
  - pose proof (findall_Forall match_typescript electrum_url
                  (S (String.length content)) content) as Hall.
    rewrite Forall_forall in Hall. apply Hall; [|done].
    by intros s g a [? _]%match_typescript_Some.
  - apply (findall_occurs match_typescript quoted (S (String.length content))); [|done].
    by intros s g a [_ ?]%match_typescript_Some.
Qed.

(** X4.  From a text made of quoted tcp:// and ssl:// URLs, with other text
    around them in which no such string begins, the function returns exactly
    these URLs, in the order of the text. *)
Theorem extract_typescript_complete items last :
  Forall (fun item : string * string =>
            calm typescript_prefixes item.1 = true /\ electrum_url item.2) items ->
  calm typescript_prefixes last = true ->
  extract_servers_from_typescript (typescript_text items last) = map snd items.
Proof.
  intros Hitems Hlast. unfold extract_servers_from_typescript, typescript_text.
  apply (findall_source_text match_typescript typescript_prefixes
           match_typescript_shortens match_typescript_begins quoted electrum_url);
    [|done|done|done|lia].
  intros url after Hurl. by apply match_typescript_call.
Qed.

End Extraction.

Section ExtractionExamples.

Import Files FileSample.

Lemma extract_rust_sound_witness :
  "tcp://node.example:50001" <> EmptyString /\
  contains QUOTE "tcp://node.example:50001" = false /\
  exists before after,
    rust_content = before +:+ rust_call "tcp://node.example:50001" +:+ after.
Proof.
  apply (extract_rust_sound rust_content "tcp://node.example:50001").
  vm_compute. apply list_elem_of_further, list_elem_of_here.
Defined.

Lemma extract_rust_complete_witness :
  extract_servers_from_rust rust_content
  = ["ssl://electrum.example:50002"; "tcp://node.example:50001"].
Proof.
  apply (extract_rust_complete rust_items ";").
  - repeat constructor; discriminate.
  - reflexivity.
Defined.

Lemma extract_typescript_sound_witness :
  electrum_url "ssl://electrum.example:50002" /\
  exists before after,
    typescript_content = before +:+ quoted "ssl://electrum.example:50002" +:+ after.
Proof.
  apply (extract_typescript_sound typescript_content "ssl://electrum.example:50002").
  vm_compute. apply list_elem_of_here.
Defined.

Lemma extract_typescript_complete_witness :
  extract_servers_from_typescript typescript_content
  = ["ssl://electrum.example:50002"; "tcp://node.example:50001";
     "tcp://other.example:50001"].
Proof.
  apply (extract_typescript_complete typescript_items "];").
  - repeat constructor.
    + exists "electrum.example:50002". by split; [right|].
    + exists "node.example:50001". by split; [left|].
    + exists "other.example:50001". by split; [left|].
  - reflexivity.
Defined.

End ExtractionExamples.

(** *** More on the probes *)

Section ProbeReplies.

Context (rt : Runtime).

Import HealthCheck Files.

Lemma recv_loop_pieces pieces last later response :
  Forall line_piece pieces ->
  contains LF response = false ->
  nonempty last = true -> contains LF last = true ->
  recv_loop (map Return pieces ++ Return last :: later) response
  = Return (response +:+ concat_str pieces +:+ last).
Proof.
  intros Hpieces. revert response.
  induction Hpieces as [|piece pieces [Hne Hlf] _ IH]; intros response Hresp Hlast Hline.
  - simpl. rewrite Hlast, contains_append, Hline, orb_true_r. simpl.
    by rewrite append_nil_l.
  - simpl. rewrite Hne, contains_append, Hresp, Hlf. simpl.
    rewrite IH; [|by rewrite contains_append, Hresp, Hlf|done|done].
    by rewrite !append_assoc.
Qed.

Lemma recv_loop_pieces_closed pieces response :
  Forall line_piece pieces ->
  contains LF response = false ->
  recv_loop (map Return pieces) response = Return (response +:+ concat_str pieces).
Proof.
  intros Hpieces. revert response.
  induction Hpieces as [|piece pieces [Hne Hlf] _ IH]; intros response Hresp.
  - simpl. by rewrite append_nil_r.
  - simpl. rewrite Hne, contains_append, Hresp, Hlf. simpl.
    rewrite IH; [|by rewrite contains_append, Hresp, Hlf].
    by rewrite !append_assoc.
Qed.

Lemma recv_loop_pieces_eof pieces later response :
  Forall line_piece pieces ->
  contains LF response = false ->
  recv_loop (map Return pieces ++ Return EmptyString :: later) response
  = Return (response +:+ concat_str pieces).
Proof.
  intros Hpieces. revert response.
  induction Hpieces as [|piece pieces [Hne Hlf] _ IH]; intros response Hresp.
  - simpl. by rewrite append_nil_r.
  - simpl. rewrite Hne, contains_append, Hresp, Hlf. simpl.
    rewrite IH; [|by rewrite contains_append, Hresp, Hlf].
    by rewrite !append_assoc.
Qed.

(** The [try] block reads the connection through its calls only. *)
Lemma probe_try_same_setup (t : transport) net1 net2 host port timeout :
  same_setup (connection_of t net1 host port timeout)
             (connection_of t net2 host port timeout) ->
  recv_loop (conn_recv (connection_of t net1 host port timeout)) EmptyString
  = recv_loop (conn_recv (connection_of t net2 host port timeout)) EmptyString ->
  probe_try rt t net1 host port timeout = probe_try rt t net2 host port timeout.
Proof.
  intros (Hctx & Hsock & Hwrap & Hconn & Hsend) Hrecv. destruct t; simpl in *.
  - unfold check_tcp_server_try. by rewrite Hsock, Hconn, Hsend, Hrecv.
  - unfold check_ssl_server_try. by rewrite Hctx, Hsock, Hwrap, Hconn, Hsend, Hrecv.
Qed.

Lemma rstrip_spaces (s : string) :
  forallb_str isspace s = true -> rstrip isspace s = EmptyString.
Proof.
  induction s as [|a s IH]; simpl; [done|].
  intros [Ha Hs]%andb_true_iff. by rewrite (IH Hs), Ha.
Qed.

Lemma strip_spaces (s : string) : forallb_str isspace s = true -> strip s = EmptyString.
Proof. intros H. unfold strip. by rewrite (rstrip_spaces _ H). Qed.

(** X5.  The read loop puts the reply together from the chunks in which it
    arrives: it appends every chunk up to the first one that holds a line
    feed, keeps the whole of that chunk and reads no further; when the peer
    closes before any line feed, the reply is what was received. *)
Theorem read_loop_reassembles pieces :
  Forall line_piece pieces ->
  (forall last later,
     nonempty last = true -> contains LF last = true ->
     recv_loop (map Return pieces ++ Return last :: later) EmptyString
     = Return (concat_str pieces +:+ last)) /\
  recv_loop (map Return pieces) EmptyString = Return (concat_str pieces) /\
  (forall later,
     recv_loop (map Return pieces ++ Return EmptyString :: later) EmptyString
     = Return (concat_str pieces)).
Proof.
  intros Hpieces. split; [|split].
  - intros last later Hlast Hline.
    by rewrite (recv_loop_pieces pieces last later EmptyString).
  - by rewrite (recv_loop_pieces_closed pieces EmptyString).
  - intros later. by rewrite (recv_loop_pieces_eof pieces later EmptyString).
Qed.

(** X6.  The verdict of a probe does not depend on how the reply is cut into
    chunks: a line that arrives in pieces, whatever comes after it, is
    judged like the same line received at once. *)
Theorem probe_ignores_chunking (t : transport) net1 net2 host port timeout
    pieces last later :
  same_setup (connection_of t net1 host port timeout)
             (connection_of t net2 host port timeout) ->
  conn_recv (connection_of t net1 host port timeout)
    = map Return pieces ++ Return last :: later ->
  conn_recv (connection_of t net2 host port timeout)
    = [Return (concat_str pieces +:+ last)] ->
  Forall line_piece pieces ->
  nonempty last = true -> contains LF last = true ->
  probe rt t net1 host port timeout = probe rt t net2 host port timeout.
Proof.
  intros Hsame Hrecv1 Hrecv2 Hpieces Hlast Hline.
  rewrite !probe_handles.
  rewrite (probe_try_same_setup t net1 net2 host port timeout Hsame); [done|].
  rewrite Hrecv1, Hrecv2.
  rewrite (recv_loop_pieces pieces last later EmptyString Hpieces eq_refl Hlast Hline).
  rewrite append_nil_l.
  assert (nonempty (concat_str pieces +:+ last) = true) as Hne.
  { destruct pieces as [|p ps]; [by rewrite append_nil_l|].
    apply Forall_cons in Hpieces as [[Hp _] _]. simpl. destruct p; [done|].
    by rewrite !append_cons. }
  simpl. rewrite Hne, append_nil_l, contains_append, Hline, orb_true_r. done.
Qed.

(** X7.  A reply of white space only, such as an empty line, is answered
    with No valid response; the JSON decoder is not asked. *)
Theorem blank_reply_is_no_response (t : transport) net host port timeout response text :
  established t (connection_of t net host port timeout) ->
  recv_loop (conn_recv (connection_of t net host port timeout)) EmptyString
    = Return response ->
  decode rt response = Return text ->
  forallb_str isspace text = true ->
  probe rt t net host port timeout = Return (false, "No valid response").
Proof.
  intros Hest Hrecv Hdecode Hblank.
  rewrite probe_handles, (probe_try_established rt _ _ _ _ _ Hest).
  unfold received. rewrite Hrecv. simpl. rewrite Hdecode. simpl.
  by rewrite (strip_spaces _ Hblank).
Qed.

(** X8.  The verdict on every value that the decoder returns.  Membership is
    tested on the value as Python does: the keys of an object, the items of
    an array, the parts of a string; a number, a boolean or null raises a
    TypeError, whose text becomes the detail. *)
Theorem probe_judges_value (t : transport) net host port timeout response_str data :
  established t (connection_of t net host port timeout) ->
  received rt (connection_of t net host port timeout) = Return response_str ->
  response_str <> EmptyString ->
  json_loads rt response_str = Return data ->
  probe rt t net host port timeout
  = Return
      match data with
      | JObject members =>
          if existsb (fun kv => String.eqb (fst kv) "result") members
             || existsb (fun kv => String.eqb (fst kv) "error") members
          then (true, "OK") else (false, "No valid response")
      | JArray items =>
          if existsb (json_eq_str "result") items || existsb (json_eq_str "error") items
          then (true, "OK") else (false, "No valid response")
      | JString s =>
          if is_substring "result" s || is_substring "error" s
          then (true, "OK") else (false, "No valid response")
      | _ => (false, "argument of type '" +:+ type_name data +:+ "' is not iterable")
      end.
Proof.
  intros Hest Hrecv Hne Hloads.
  rewrite probe_handles, (probe_try_established rt _ _ _ _ _ Hest), Hrecv. simpl.
  unfold judge. rewrite (nonempty_true _ Hne), Hloads. simpl.
  destruct data as [|b|n|lit|s|items|members]; simpl; try by destruct t.
  - by destruct (is_substring "result" s); simpl; [|destruct (is_substring "error" s)].
  - by destruct (existsb (json_eq_str "result") items); simpl;
      [|destruct (existsb (json_eq_str "error") items)].
  - by destruct (existsb (fun kv => String.eqb (fst kv) "result") members); simpl;
      [|destruct (existsb (fun kv => String.eqb (fst kv) "error") members)].
Qed.

(** What a success of a probe presupposes. *)
Lemma probe_success_inv (t : transport) net host port timeout detail :
  probe rt t net host port timeout = Return (true, detail) ->
  detail = "OK" /\
  established t (connection_of t net host port timeout) /\
  exists response_str data,
    received rt (connection_of t net host port timeout) = Return response_str /\
    response_str <> EmptyString /\
    json_loads rt response_str = Return data /\
    (py_in "result" data = Return true \/ py_in "error" data = Return true).
Proof.
  rewrite probe_handles.
  destruct (probe_try rt t net host port timeout) as [[success d]|e] eqn:Htry; [|done].
  intros [= -> ->].
  assert (established t (connection_of t net host port timeout)) as Hest.
  { destruct t; simpl in *.
    - unfold check_tcp_server_try in Htry.
      destruct (conn_socket _) eqn:?; [done|]. destruct (conn_connect _) eqn:?; [done|].
      destruct (conn_sendall _ _) eqn:?; [done|]. by repeat split.
    - unfold check_ssl_server_try in Htry.
      destruct (conn_context _) eqn:?; [done|]. destruct (conn_socket _) eqn:?; [done|].
      destruct (conn_wrap _) eqn:?; [done|]. destruct (conn_connect _) eqn:?; [done|].
      destruct (conn_sendall _ _) eqn:?; [done|]. by repeat split. }
  rewrite (probe_try_established rt _ _ _ _ _ Hest) in Htry.
  destruct (received rt _) as [response_str|e] eqn:Hrecv; [|done]. simpl in Htry.
  unfold judge in Htry. destruct (nonempty response_str) eqn:Hne; [|done].
  destruct (json_loads rt response_str) as [data|e] eqn:Hloads; [|done]. simpl in Htry.
  destruct (py_in "result" data) as [[|]|e] eqn:Hres; simpl in Htry; [| |done].
  - injection Htry as <-. split; [done|]. split; [done|].
    exists response_str, data. repeat split; [by apply nonempty_iff|done|by left].
  - destruct (py_in "error" data) as [[|]|e] eqn:Herr; simpl in Htry; [|done|done].
    injection Htry as <-. split; [done|]. split; [done|].
    exists response_str, data. repeat split; [by apply nonempty_iff|done|by right].
Qed.

(** X9.  A probe reports success only after the connection was set up, the
    request sent, and a reply received that is not empty, that the decoder
    accepts, and in which result or error is found; the detail is then OK. *)
Theorem probe_success_sound (t : transport) net host port timeout detail :
  probe rt t net host port timeout = Return (true, detail) ->
  detail = "OK" /\
  established t (connection_of t net host port timeout) /\
  exists response_str data,
    received rt (connection_of t net host port timeout) = Return response_str /\
    response_str <> EmptyString /\
    json_loads rt response_str = Return data /\
    (py_in "result" data = Return true \/ py_in "error" data = Return true).
Proof. apply probe_success_inv. Qed.

(** X10.  On a connection that behaves alike for both, with the TLS context
    and the wrapping set up and no TLS error raised, the encrypted probe
    returns what the plain probe returns. *)
Theorem probes_agree net host port timeout :
  tls net host port timeout = plain net host port timeout ->
  conn_context (tls net host port timeout) = None ->
  conn_wrap (tls net host port timeout) = None ->
  (forall e, check_tcp_server_try rt net host port timeout = Raise e ->
             exc_class e <> SSLError) ->
  check_ssl_server rt net host port timeout = check_tcp_server rt net host port timeout.
Proof.
  intros Hsame Hctx Hwrap Hnossl.
  assert (check_ssl_server_try rt net host port timeout
          = check_tcp_server_try rt net host port timeout) as Htry.
  { unfold check_ssl_server_try, check_tcp_server_try. rewrite Hctx, Hwrap, Hsame. done. }
  pose proof (probe_handles rt Encrypted net host port timeout) as Hssl.
  pose proof (probe_handles rt Plaintext net host port timeout) as Htcp.
  simpl in Hssl, Htcp. rewrite Hssl, Htcp, Htry.
  destruct (check_tcp_server_try rt net host port timeout) as [r|e] eqn:He; [done|].
  specialize (Hnossl e eq_refl). unfold error_detail. by destruct (exc_class e).
Qed.

End ProbeReplies.

Section ProbeRepliesExamples.

Import HealthCheck Files Sample.

Lemma read_loop_reassembles_witness :
  recv_loop (conn_recv ReplySample.in_chunks) EmptyString
  = Return (reply_ok +:+ String LF EmptyString).
Proof.
  apply (proj1 (read_loop_reassembles [ReplySample.first_chunk]
                  ltac:(repeat constructor))
           ReplySample.second_chunk [Return "never read"]); reflexivity.
Defined.

Lemma probe_ignores_chunking_witness :
  check_tcp_server runtime (every ReplySample.in_chunks) "host" 50001 2
  = check_tcp_server runtime (every (replying reply_ok)) "host" 50001 2.
Proof.
  apply (probe_ignores_chunking runtime Plaintext
           (every ReplySample.in_chunks) (every (replying reply_ok)) "host" 50001 2
           [ReplySample.first_chunk] ReplySample.second_chunk [Return "never read"]).
  - repeat split.
  - reflexivity.
  - reflexivity.
  - repeat constructor.
  - reflexivity.
  - reflexivity.
Defined.

Lemma blank_reply_is_no_response_witness :
  check_ssl_server runtime (every (replying EmptyString)) "host" 50002 2
  = Return (false, "No valid response").
Proof.
  apply (blank_reply_is_no_response runtime Encrypted (every (replying EmptyString))
           "host" 50002 2 (String LF EmptyString) (String LF EmptyString)).
  - repeat split; reflexivity.
  - reflexivity.
  - reflexivity.
  - reflexivity.
Defined.

Lemma probe_judges_value_witness :
  check_tcp_server ReplySample.runtime (every (replying "5")) "host" 50001 2
  = Return (false, "argument of type 'int' is not iterable").
Proof.
  apply (probe_judges_value ReplySample.runtime Plaintext (every (replying "5"))
           "host" 50001 2 "5" (JInt 5)).
  - repeat split; reflexivity.
  - reflexivity.
  - discriminate.
  - reflexivity.
Defined.

Lemma probe_success_sound_witness :
  "OK" = "OK" /\
  established Plaintext (connection_of Plaintext (every (replying reply_ok)) "host" 50001 2) /\
  exists response_str data,
    received runtime (connection_of Plaintext (every (replying reply_ok)) "host" 50001 2)
      = Return response_str /\
    response_str <> EmptyString /\
    json_loads runtime response_str = Return data /\
    (py_in "result" data = Return true \/ py_in "error" data = Return true).
Proof.
  apply (probe_success_sound runtime Plaintext (every (replying reply_ok)) "host" 50001 2 "OK").
  reflexivity.
Defined.

Lemma probes_agree_witness :
  check_ssl_server runtime (every (failing refused)) "host" 50002 2
  = check_tcp_server runtime (every (failing refused)) "host" 50002 2.
Proof.
  apply (probes_agree runtime (every (failing refused)) "host" 50002 2).
  - reflexivity.
  - reflexivity.
  - reflexivity.
  - intros e [= <-]. discriminate.
Defined.

End ProbeRepliesExamples.

(** *** More on [check_server] *)

Section Calls.

Context (rt : Runtime).

Import UrlParse HealthCheck Files.

Lemma check_tcp_server_plain net1 net2 host port timeout :
  plain net1 host port timeout = plain net2 host port timeout ->
  check_tcp_server rt net1 host port timeout = check_tcp_server rt net2 host port timeout.
Proof.
  intros H. unfold check_tcp_server, check_tcp_server_try. by rewrite H.
Qed.

Lemma check_ssl_server_tls net1 net2 host port timeout :
  tls net1 host port timeout = tls net2 host port timeout ->
  check_ssl_server rt net1 host port timeout = check_ssl_server rt net2 host port timeout.
Proof.
  intros H. unfold check_ssl_server, check_ssl_server_try. by rewrite H.
Qed.

(** What [route_of] reads from the parsed URL. *)
Lemma route_of_probe url host p :
  route_of rt url = Return (ProbeTcp host p) \/ route_of rt url = Return (ProbeSsl host p) ->
  exists parsed,
    urlparse rt url = Return parsed /\ hostname parsed = Some host /\
    port rt parsed = Return (Some p) /\
    (route_of rt url = Return (ProbeTcp host p) -> scheme parsed = "tcp") /\
    (route_of rt url = Return (ProbeSsl host p) -> scheme parsed = "ssl").
Proof.
  unfold route_of.
  destruct (urlparse rt url) as [parsed|e]; simpl; [|by intros [?|?]].
  destruct (port rt parsed) as [[q|]|e] eqn:Hport; simpl; [| |by intros [?|?]].
  - destruct (hostname parsed) as [h|] eqn:Hh; simpl; [|by intros [?|?]].
    destruct (nonempty h); simpl; [|by intros [?|?]].
    destruct (q =? 0)%Z; simpl; [by intros [?|?]|].
    destruct (String.eqb_spec (scheme parsed) "tcp") as [Htcp|Htcp].
    { intros [[= <- <-]|[=]]. exists parsed. by repeat split. }
    destruct (String.eqb_spec (scheme parsed) "ssl") as [Hssl|Hssl].
    { intros [[=]|[= <- <-]]. exists parsed. by repeat split. }
    by intros [?|?].
  - destruct (hostname parsed); by intros [?|?].
Qed.

(** X11.  A call of [check_server] opens at most one connection: the plain
    one or the TLS one to the host and port of its URL, with the default
    timeout.  Nothing else of the network has a part in its result, and a
    URL that it rejects is answered without any connection. *)
Theorem check_server_connects_once net1 net2 url :
  (forall host p, route_of rt url = Return (ProbeTcp host p) ->
     plain net1 host p default_timeout = plain net2 host p default_timeout) ->
  (forall host p, route_of rt url = Return (ProbeSsl host p) ->
     tls net1 host p default_timeout = tls net2 host p default_timeout) ->
  check_server rt net1 url = check_server rt net2 url.
Proof.
  intros Hplain Htls. rewrite !check_server_follow.
  destruct (route_of rt url) as [[detail|host p|host p]|e]; simpl; [done| | |done].
  - by rewrite (check_tcp_server_plain net1 net2 host p default_timeout (Hplain _ _ eq_refl)).
  - by rewrite (check_ssl_server_tls net1 net2 host p default_timeout (Htls _ _ eq_refl)).
Qed.

(** X12.  [check_server] reports success only for a URL with the scheme tcp
    or ssl, a host and a port between 1 and 65535, and only when the probe
    for that scheme, called with this host and port, has succeeded; the
    message is then OK and the URL is returned as it was given. *)
Theorem check_server_success_sound net url u message :
  check_server rt net url = Return (u, true, message) ->
  u = url /\ message = "OK" /\
  exists parsed host p,
    urlparse rt url = Return parsed /\ hostname parsed = Some host /\
    port rt parsed = Return (Some p) /\
    host <> EmptyString /\ (1 <= p <= 65535)%Z /\
    ((scheme parsed = "tcp" /\
      check_tcp_server rt net host p default_timeout = Return (true, "OK")) \/
     (scheme parsed = "ssl" /\
      check_ssl_server rt net host p default_timeout = Return (true, "OK"))).
Proof.
  intros Hcheck. pose proof (check_server_url rt _ _ _ _ _ Hcheck) as ->.
  split; [done|]. rewrite check_server_follow in Hcheck.
  destruct (route_of rt url) as [[detail|host p|host p]|e] eqn:Hroute;
    simpl in Hcheck; [done| | |done].
  - destruct (check_tcp_server rt net host p default_timeout) as [[s d]|e] eqn:Hprobe;
      simpl in Hcheck; [|done].
    injection Hcheck as Hs Hd. simpl in Hs, Hd. subst s d.
    pose proof (probe_success_inv rt Plaintext net host p default_timeout message Hprobe)
      as [-> _].
    split; [done|].
    destruct (route_of_probe url host p (or_introl Hroute))
      as (parsed & Hparse & Hhost & Hport & Htcp & _).
    destruct (route_probe_bounds rt url host p (or_introl Hroute)) as [Hne Hrange].
    exists parsed, host, p. repeat split; try done; try lia. left. by split; [apply Htcp|].
  - destruct (check_ssl_server rt net host p default_timeout) as [[s d]|e] eqn:Hprobe;
      simpl in Hcheck; [|done].
    injection Hcheck as Hs Hd. simpl in Hs, Hd. subst s d.
    pose proof (probe_success_inv rt Encrypted net host p default_timeout message Hprobe)
      as [-> _].
    split; [done|].
    destruct (route_of_probe url host p (or_intror Hroute))
      as (parsed & Hparse & Hhost & Hport & _ & Hssl).
    destruct (route_probe_bounds rt url host p (or_intror Hroute)) as [Hne Hrange].
    exists parsed, host, p. repeat split; try done; try lia. right. by split; [apply Hssl|].
Qed.

End Calls.

Section CallsExamples.

Import UrlParse HealthCheck Files Sample.

Lemma check_server_connects_once_witness :
  check_server runtime by_port "tcp://b.example:50001"
  = check_server runtime (every (replying reply_ok)) "tcp://b.example:50001".
Proof.
  apply (check_server_connects_once runtime by_port (every (replying reply_ok))
           "tcp://b.example:50001").
  - intros host p [= <- <-]. reflexivity.
  - intros host p [=].
Defined.

Lemma check_server_success_sound_witness :
  "tcp://b.example:50001" = "tcp://b.example:50001" /\ "OK" = "OK" /\
  exists parsed host p,
    urlparse runtime "tcp://b.example:50001" = Return parsed /\
    hostname parsed = Some host /\
    port runtime parsed = Return (Some p) /\
    host <> EmptyString /\ (1 <= p <= 65535)%Z /\
    ((scheme parsed = "tcp" /\
      check_tcp_server runtime by_port host p default_timeout = Return (true, "OK")) \/
     (scheme parsed = "ssl" /\
      check_ssl_server runtime by_port host p default_timeout = Return (true, "OK"))).
Proof.
  apply (check_server_success_sound runtime by_port "tcp://b.example:50001").
  reflexivity.
Defined.

End CallsExamples.

(** *** More on the server list and the summary *)

Section Summary.

Context (rt : Runtime).

Import HealthCheck Files.

Lemma list_to_set_ext (l1 l2 : list string) :
  (forall url, url ∈ l1 <-> url ∈ l2) ->
  (list_to_set l1 : gset string) = list_to_set l2.
Proof. intros H. apply set_eq. intros url. by rewrite !elem_of_list_to_set. Qed.

Lemma all_servers_submseteq rust ts : all_servers rust ts ⊆+ rust ++ ts.
Proof.
  apply NoDup_submseteq; [apply NoDup_all_servers|].
  intros url. by rewrite elem_of_all_servers.
Qed.

(** What a run that reaches the summary has gone through. *)
Lemma main_Return_inv world as_completed rust ts s :
  (forall fs, as_completed fs ≡ₚ fs) ->
  main rt world as_completed rust ts = Return s ->
  all_return rt world (all_servers rust ts) /\
  servers s = all_servers rust ts /\
  working s
    = successes (results (as_completed (submit_all rt world (all_servers rust ts)))) /\
  broken s
    = failures (results (as_completed (submit_all rt world (all_servers rust ts)))) /\
  exit_code s = (if Nat.eqb (List.length (broken s)) 0 then 0 else 1)%Z /\
  new_server_working s
    = (if bool_decide (new_server ∈ all_servers rust ts)
       then Some (bool_decide (new_server ∈ working s)) else None).
Proof.
  intros Hperm Hmain.
  assert (all_return rt world (all_servers rust ts)) as Hall.
  { intros url Hin%list_elem_of_In%elem_of_all_servers.
    destruct (check_server rt (world url) url) as [r|e] eqn:Hr; [by exists r|].
    destruct (main_raises rt world as_completed rust ts url e Hperm Hin Hr) as [e' He'].
    congruence. }
  split; [done|].
  destruct (main_returns rt world as_completed rust ts Hperm Hall) as (s' & Hs' & H).
  rewrite Hmain in Hs'. by injection Hs' as <-.
Qed.

Lemma elem_of_results world as_completed urls r :
  (forall fs, as_completed fs ≡ₚ fs) ->
  r ∈ results (as_completed (submit_all rt world urls)) <->
  exists url, url ∈ urls /\ check_server rt (world url) url = Return r.
Proof.
  intros Hperm. unfold results. rewrite list_elem_of_omap. split.
  - intros ([u o] & Hin & Hsome). rewrite Hperm in Hin.
    apply list_elem_of_In, in_map_iff in Hin as (url & [= <- <-] & Hurl).
    exists url. split; [by apply list_elem_of_In|].
    simpl in Hsome. by destruct (check_server rt (world url) url); [injection Hsome as ->|].
  - intros (url & Hurl & Hr). exists (url, check_server rt (world url) url). split.
    + rewrite Hperm. apply list_elem_of_In, in_map_iff. exists url.
      split; [done|]. by apply list_elem_of_In.
    + simpl. by rewrite Hr.
Qed.

Lemma elem_of_successes rs url :
  url ∈ successes rs <-> exists message, (url, true, message) ∈ rs.
Proof.
  unfold successes. rewrite list_elem_of_omap. split.
  - intros ([[u success] message] & Hin & Hsome).
    destruct success; [|done]. injection Hsome as ->. by exists message.
  - intros (message & Hin). by exists (url, true, message).
Qed.

Lemma elem_of_failures rs url message :
  (url, message) ∈ failures rs <-> (url, false, message) ∈ rs.
Proof.
  unfold failures. rewrite list_elem_of_omap. split.
  - intros ([[u success] m] & Hin & Hsome).
    destruct success; [done|]. by injection Hsome as -> ->.
  - intros Hin. by exists (url, false, message).
Qed.

Lemma working_iff world as_completed rust ts s url :
  (forall fs, as_completed fs ≡ₚ fs) ->
  main rt world as_completed rust ts = Return s ->
  url ∈ working s <-> url ∈ rust ++ ts /\ succeeds rt world url.
Proof.
  intros Hperm Hmain.
  destruct (main_Return_inv world as_completed rust ts s Hperm Hmain)
    as (_ & _ & -> & _).
  rewrite elem_of_successes. unfold succeeds. split.
  - intros (message & (u & Hu & Hr)%elem_of_results); [|done].
    pose proof (check_server_url rt _ _ _ _ _ Hr) as ->.
    split; [by apply elem_of_all_servers|by exists message].
  - intros (Hin & message & Hr). exists message. apply elem_of_results; [done|].
    exists url. split; [by apply elem_of_all_servers|done].
Qed.

Lemma broken_iff world as_completed rust ts s url message :
  (forall fs, as_completed fs ≡ₚ fs) ->
  main rt world as_completed rust ts = Return s ->
  (url, message) ∈ broken s <-> url ∈ rust ++ ts /\ fails_with rt world url message.
Proof.
  intros Hperm Hmain.
  destruct (main_Return_inv world as_completed rust ts s Hperm Hmain)
    as (_ & _ & _ & -> & _).
  rewrite elem_of_failures. unfold fails_with. split.
  - intros (u & Hu & Hr)%elem_of_results; [|done].
    pose proof (check_server_url rt _ _ _ _ _ Hr) as ->.
    split; [by apply elem_of_all_servers|done].
  - intros (Hin & Hr). apply elem_of_results; [done|].
    exists url. split; [by apply elem_of_all_servers|done].
Qed.

Lemma exit_code_zero_iff world as_completed rust ts s :
  (forall fs, as_completed fs ≡ₚ fs) ->
  main rt world as_completed rust ts = Return s ->
  exit_code s = 0%Z <-> forall url, url ∈ rust ++ ts -> succeeds rt world url.
Proof.
  intros Hperm Hmain.
  destruct (main_Return_inv world as_completed rust ts s Hperm Hmain)
    as (Hall & _ & _ & _ & -> & _).
  split.
  - destruct (broken s) as [|pair rest] eqn:Hbroken; [|done]. intros _ url Hin.
    destruct (Hall url) as [[[u success] message] Hr].
    { by apply list_elem_of_In, elem_of_all_servers. }
    pose proof (check_server_url rt _ _ _ _ _ Hr) as ->.
    destruct success; [by exists message|].
    assert ((url, message) ∈ broken s) as Hin'.
    { by apply (broken_iff world as_completed rust ts s url message Hperm Hmain). }
    rewrite Hbroken in Hin'. by apply elem_of_nil in Hin'.
  - intros Hgood. destruct (broken s) as [|[url message] rest] eqn:Hbroken; [done|].
    assert ((url, message) ∈ broken s) as Hin by (rewrite Hbroken; apply list_elem_of_here).
    apply (broken_iff world as_completed rust ts s url message Hperm Hmain) in Hin
      as [Hin Hfail].
    destruct (Hgood url Hin) as [m Hm]. unfold fails_with in Hfail. congruence.
Qed.

(** X13.  The list of servers to check depends on the set of extracted URLs
    only: not on the file a URL comes from, on the order of the URLs, or on
    how often one occurs. *)
Theorem all_servers_of_set rust1 ts1 rust2 ts2 :
  (forall url, url ∈ rust1 ++ ts1 <-> url ∈ rust2 ++ ts2) ->
  all_servers rust1 ts1 = all_servers rust2 ts2.
Proof. intros H. unfold all_servers. by rewrite (list_to_set_ext _ _ H). Qed.

(** X14.  The number of unique servers is at most the number of extracted
    URLs, and equal to it exactly when no URL was extracted twice. *)
Theorem all_servers_length rust ts :
  List.length (all_servers rust ts) <= List.length (rust ++ ts) /\
  (List.length (all_servers rust ts) = List.length (rust ++ ts) <-> NoDup (rust ++ ts)).
Proof.
  split; [apply submseteq_length, all_servers_submseteq|]. split.
  - intros Hlen.
    rewrite <- (submseteq_length_Permutation _ _ (all_servers_submseteq rust ts)); [|lia].
    apply NoDup_all_servers.
  - intros Hnodup. apply Permutation_length.
    rewrite all_servers_Permutation. by apply elements_list_to_set.
Qed.

(** X15.  In a run that reaches the summary, the working list holds exactly
    the extracted URLs whose call succeeded, and the broken list exactly the
    extracted URLs whose call failed, each with the message of its call. *)
Theorem summary_lists_outcomes world as_completed rust ts s :
  (forall fs, as_completed fs ≡ₚ fs) ->
  main rt world as_completed rust ts = Return s ->
  (forall url, url ∈ working s <-> url ∈ rust ++ ts /\ succeeds rt world url) /\
  (forall url message,
     (url, message) ∈ broken s <-> url ∈ rust ++ ts /\ fails_with rt world url message).
Proof.
  intros Hperm Hmain. split.
  - intros url. by apply (working_iff world as_completed rust ts s).
  - intros url message. by apply (broken_iff world as_completed rust ts s).
Qed.

(** X16.  A run that reaches the summary exits with 0 or 1, and with 0
    exactly when the call for every extracted URL succeeded; with no URL
    extracted it exits with 0. *)
Theorem exit_code_reports_health world as_completed rust ts s :
  (forall fs, as_completed fs ≡ₚ fs) ->
  main rt world as_completed rust ts = Return s ->
  (exit_code s = 0%Z \/ exit_code s = 1%Z) /\
  (exit_code s = 0%Z <-> forall url, url ∈ rust ++ ts -> succeeds rt world url) /\
  (rust ++ ts = [] -> exit_code s = 0%Z).
Proof.
  intros Hperm Hmain. split; [|split].
  - destruct (main_Return_inv world as_completed rust ts s Hperm Hmain)
      as (_ & _ & _ & _ & -> & _).
    destruct (Nat.eqb _ _); auto.
  - by apply (exit_code_zero_iff world as_completed rust ts s).
  - intros Hnone. apply (exit_code_zero_iff world as_completed rust ts s Hperm Hmain).
    rewrite Hnone. by intros url ?%elem_of_nil.
Qed.

(** X17.  The report on the newly added server: nothing is said when its URL
    was not extracted; otherwise it is reported as working exactly when its
    own call succeeded. *)
Theorem new_server_report world as_completed rust ts s :
  (forall fs, as_completed fs ≡ₚ fs) ->
  main rt world as_completed rust ts = Return s ->
  (new_server_working s = None <-> new_server ∉ rust ++ ts) /\
  (new_server_working s = Some true <->
     new_server ∈ rust ++ ts /\ succeeds rt world new_server) /\
  (new_server_working s = Some false <->
     new_server ∈ rust ++ ts /\ ~ succeeds rt world new_server).
Proof.
  intros Hperm Hmain.
  destruct (main_Return_inv world as_completed rust ts s Hperm Hmain)
    as (_ & _ & _ & _ & _ & ->).
  pose proof (working_iff world as_completed rust ts s new_server Hperm Hmain) as Hw.
  destruct (bool_decide_reflect (new_server ∈ all_servers rust ts)) as [Hin|Hnot];
    rewrite elem_of_all_servers in *.
  - destruct (bool_decide_reflect (new_server ∈ working s)) as [Hyes|Hno].
    + split; [by split|]. split; [by split; [intros _; apply Hw|]|].
      split; [done|]. intros [_ Hns]. destruct Hns. by apply Hw.
    + split; [by split|]. split.
      * split; [done|]. intros H. destruct Hno. by apply Hw.
      * split; [|done]. intros _. split; [done|]. intros Hs. apply Hno, Hw. by split.
  - split; [by split|]. split; split; try done; by intros [? _].
Qed.

(** X18.  The exit status of the script.  Without one of the two files it is
    1 and no server is contacted.  It is 0 exactly when both files exist and
    the call for every URL extracted from them succeeded; a script that
    exits at all exits with 0 or 1. *)
Theorem script_exit_status world as_completed rust_file ts_file :
  (forall fs, as_completed fs ≡ₚ fs) ->
  (rust_file = None \/ ts_file = None ->
   script rt world as_completed rust_file ts_file = Return 1%Z) /\
  (script rt world as_completed rust_file ts_file = Return 0%Z <->
   exists rust_content ts_content,
     rust_file = Some rust_content /\ ts_file = Some ts_content /\
     forall url,
       url ∈ extract_servers_from_rust rust_content
             ++ extract_servers_from_typescript ts_content ->
       succeeds rt world url) /\
  (forall status, script rt world as_completed rust_file ts_file = Return status ->
     status = 0%Z \/ status = 1%Z).
Proof.
  intros Hperm. split; [|split].
  - intros [-> | ->]; [done|]. by destruct rust_file.
  - destruct rust_file as [rc|]; [|split; [done|by intros (? & ? & ? & _)]].
    destruct ts_file as [tc|]; [|split; [done|by intros (? & ? & _ & ? & _)]].
    simpl. split.
    + destruct (main rt world as_completed _ _) as [s|e] eqn:Hmain; simpl; [|done].
      intros [= Hexit]. exists rc, tc. split; [done|]. split; [done|].
      by apply (exit_code_zero_iff world as_completed _ _ s Hperm Hmain).
    + intros (rc' & tc' & [= <-] & [= <-] & Hgood).
      assert (all_return rt world
                (all_servers (extract_servers_from_rust rc)
                             (extract_servers_from_typescript tc))) as Hall.
      { intros url Hin%list_elem_of_In%elem_of_all_servers.
        destruct (Hgood url Hin) as [m Hm]. by eexists. }
      destruct (main_returns rt world as_completed _ _ Hperm Hall) as (s & Hmain & _).
      rewrite Hmain. simpl. f_equal.
      by apply (exit_code_zero_iff world as_completed _ _ s Hperm Hmain).
  - intros status. destruct rust_file as [rc|]; [|intros [= <-]; by right].
    destruct ts_file as [tc|]; [|intros [= <-]; by right].
    simpl. destruct (main rt world as_completed _ _) as [s|e] eqn:Hmain; simpl; [|done].
    intros [= <-].
    destruct (main_Return_inv world as_completed _ _ s Hperm Hmain)
      as (_ & _ & _ & _ & -> & _).
    destruct (Nat.eqb _ _); auto.
Qed.

End Summary.

Section SummaryExamples.

Import HealthCheck Files Sample.

Lemma all_servers_of_set_witness :
  all_servers ["tcp://a.example:1"; "ssl://b.example:2"] ["tcp://a.example:1"]
  = all_servers ["ssl://b.example:2"] ["tcp://a.example:1"].
Proof.
  apply (all_servers_of_set ["tcp://a.example:1"; "ssl://b.example:2"] ["tcp://a.example:1"]
           ["ssl://b.example:2"] ["tcp://a.example:1"]).
  intros url. simpl. rewrite !elem_of_cons, elem_of_nil. tauto.
Defined.

Lemma summary_lists_outcomes_witness :
  exists s,
    main runtime world (fun fs => fs) urls [] = Return s /\
    (forall url, url ∈ working s <-> url ∈ urls ++ [] /\ succeeds runtime world url) /\
    (forall url message,
       (url, message) ∈ broken s <->
       url ∈ urls ++ [] /\ fails_with runtime world url message).
Proof.
  eexists. split; [vm_compute; reflexivity|].
  apply (summary_lists_outcomes runtime world (fun fs => fs) urls []).
  - intros fs. reflexivity.
  - vm_compute. reflexivity.
Defined.

Lemma exit_code_reports_health_witness :
  exists s,
    main runtime world (fun fs => fs) urls [] = Return s /\
    (exit_code s = 0%Z \/ exit_code s = 1%Z) /\
    (exit_code s = 0%Z <-> forall url, url ∈ urls ++ [] -> succeeds runtime world url) /\
    (urls ++ [] = [] -> exit_code s = 0%Z).
Proof.
  eexists. split; [vm_compute; reflexivity|].
  apply (exit_code_reports_health runtime world (fun fs => fs) urls []).
  - intros fs. reflexivity.
  - vm_compute. reflexivity.
Defined.

Lemma new_server_report_witness :
  exists s,
    main runtime world (fun fs => fs) [new_server] urls = Return s /\
    (new_server_working s = None <-> new_server ∉ [new_server] ++ urls) /\
    (new_server_working s = Some true <->
       new_server ∈ [new_server] ++ urls /\ succeeds runtime world new_server) /\
    (new_server_working s = Some false <->
       new_server ∈ [new_server] ++ urls /\ ~ succeeds runtime world new_server).
Proof.
  eexists. split; [vm_compute; reflexivity|].
  apply (new_server_report runtime world (fun fs => fs) [new_server] urls).
  - intros fs. reflexivity.
  - vm_compute. reflexivity.
Defined.

Lemma script_exit_status_witness :
  script runtime world (fun fs => fs) None (Some FileSample.typescript_content)
  = Return 1%Z.
Proof.
  apply (proj1 (script_exit_status runtime world (fun fs => fs) None
                  (Some FileSample.typescript_content) (fun fs => reflexivity fs))).
  by left.
Defined.

End SummaryExamples.

(** *** The probes against a peer that need not stop sending *)

Section EndlessPeers.

Context (rt : Runtime).

Import HealthCheck Endless.





(** On a peer whose data ends, the loop is the loop over its script. *)
Lemma recv_loop_for_script before script fuel response :
  List.length script < fuel ->
  recv_loop_for fuel (script_stream (before ++ script)) (List.length before) response
  = Done (recv_loop script response).
Proof.
  revert before fuel response.
  induction script as [|call script IH]; intros before fuel response Hfuel.
  - destruct fuel as [|fuel]; [simpl in Hfuel; lia|]. simpl. unfold script_stream.
    by rewrite app_nil_r, nth_overflow.
  - destruct fuel as [|fuel]; [simpl in Hfuel; lia|]. simpl. unfold script_stream at 1.
    rewrite app_nth2, Nat.sub_diag; [|lia]. simpl.
    destruct call as [chunk|e]; [|done].
    destruct (nonempty chunk); simpl; [|done].
    destruct (contains LF (response +:+ chunk)); [done|].
    replace (before ++ Return chunk :: script) with ((before ++ [Return chunk]) ++ script)
      by (by rewrite <- app_assoc).
    replace (S (List.length before)) with (List.length (before ++ [Return chunk]))
      by (rewrite length_app; simpl; lia).
    apply IH. simpl in Hfuel. lia.
Qed.


(** On a peer whose data ends, the probes are the probes over its script. *)
Lemma probe_for_script fuel (t : transport) net host port timeout :
  List.length (conn_recv (connection_of t net host port timeout)) < fuel ->
  probe_for rt fuel t net host port timeout
    (script_stream (conn_recv (connection_of t net host port timeout)))
  = Done (probe rt t net host port timeout).
Proof.
  intros Hfuel.
  pose proof (recv_loop_for_script [] _ fuel EmptyString Hfuel) as Hloop.
  simpl in Hloop. destruct t; simpl in *.
  - unfold check_tcp_server_for, check_tcp_server_try_for, check_tcp_server,
      check_tcp_server_try.
    destruct (conn_socket _); [done|]. destruct (conn_connect _); [done|].
    destruct (conn_sendall _ _); [done|]. simpl. by rewrite Hloop.
  - unfold check_ssl_server_for, check_ssl_server_try_for, check_ssl_server,
      check_ssl_server_try.
    destruct (conn_context _); [done|]. destruct (conn_socket _); [done|].
    destruct (conn_wrap _); [done|]. destruct (conn_connect _); [done|].
    destruct (conn_sendall _ _); [done|]. simpl. by rewrite Hloop.
Qed.




End EndlessPeers.

Section EndlessPeersExamples.

Import HealthCheck Endless Sample.



End EndlessPeersExamples.
